(** * Generic singly-linked [List] with push iterators, and [genFib]

    A shallow embedding of the generics / iterators snippets of
    [26_errors.go]: the [List[T]]/[element[T]] chain with [Push],
    [AllElements] and [All], the unbounded generator [genFib], and
    [slices.Collect] as the snippets use it.

    Pointers are modelled as optional addresses into a typed heap; the
    [List] structs and the [element] cells live in a shared [memory], so
    that aliasing between [head], [tail] and the [next] links is the one of
    the program. *)

From Stdlib Require Import ZArith Lia.
From stdpp Require Import base option list strings gmap.

Set Default Proof Using "Type".

(** ** Memory *)

(** A Go pointer: [None] is [nil], [Some a] is the address [a]. *)
Definition ptr := option nat.

(** [type element[T any] struct { next *element[T]; val T }] *)
Record element (T : Type) := Element { next : ptr; val : T }.
Arguments Element {T} _ _.
Arguments next {T} _.
Arguments val {T} _.

(** [type List[T any] struct { head, tail *element[T] }] *)
Record List (T : Type) := MkList { head : ptr; tail : ptr }.
Arguments MkList {T} _ _.
Arguments head {T} _.
Arguments tail {T} _.

(** The heap: the [List] structs and the [element] cells allocated so far.
    An address is an index; allocation appends. *)
Record memory (T : Type) := Memory { lists : list (List T); cells : list (element T) }.
Arguments Memory {T} _ _.
Arguments lists {T} _.
Arguments cells {T} _.

(** ** A state-and-panic monad for straight-line code *)

(** A computation reads and writes the memory and either yields a value
    or panics ([None]): Go panics on a [nil] dereference. *)
Definition M (T A : Type) : Type := memory T -> option (A * memory T).

Definition ret {T A} (a : A) : M T A := fun m => Some (a, m).

Definition bind {T A B} (c : M T A) (k : A -> M T B) : M T B :=
  fun m => match c m with
           | Some (a, m') => k a m'
           | None => None
           end.

Notation "'let!' x ':=' c 'in' k" := (bind c (fun x => k))
  (at level 10, x name, c at level 100, k at level 200, only parsing).
Notation "'do!' c 'in' k" := (bind c (fun _ => k))
  (at level 10, c at level 100, k at level 200, only parsing).

Section Primitives.
Context {T : Type}.

(** [List[T]{}]: a fresh zero-valued [List]. *)
Definition new_List : M T ptr :=
  fun m => Some (Some (length (lists m)),
                 Memory (lists m ++ [MkList None None]) (cells m)).

(** [&element[T]{val: v}]: a fresh cell, [next] zero-valued. *)
Definition new_element (v : T) : M T ptr :=
  fun m => Some (Some (length (cells m)),
                 Memory (lists m) (cells m ++ [Element None v])).

(** Dereference of a [*List[T]]. *)
Definition load_List (lst : ptr) : M T (List T) :=
  fun m => match lst with
           | None => None
           | Some a => match lists m !! a with
                       | Some l => Some (l, m)
                       | None => None
                       end
           end.

Definition store_List (lst : ptr) (f : List T -> List T) : M T unit :=
  fun m => match lst with
           | None => None
           | Some a => match lists m !! a with
                       | Some l => Some (tt, Memory (<[a := f l]> (lists m)) (cells m))
                       | None => None
                       end
           end.

Definition load_head (lst : ptr) : M T ptr := let! l := load_List lst in ret (head l).
Definition load_tail (lst : ptr) : M T ptr := let! l := load_List lst in ret (tail l).
Definition store_head (lst : ptr) (p : ptr) : M T unit :=
  store_List lst (fun l => MkList p (tail l)).
Definition store_tail (lst : ptr) (p : ptr) : M T unit :=
  store_List lst (fun l => MkList (head l) p).

(** Dereference of a [*element[T]]. *)
Definition load_element (e : ptr) : M T (element T) :=
  fun m => match e with
           | None => None
           | Some a => match cells m !! a with
                       | Some c => Some (c, m)
                       | None => None
                       end
           end.

Definition load_next (e : ptr) : M T ptr := let! c := load_element e in ret (next c).

Definition store_next (e : ptr) (p : ptr) : M T unit :=
  fun m => match e with
           | None => None
           | Some a => match cells m !! a with
                       | Some c => Some (tt, Memory (lists m) (<[a := Element p (val c)]> (cells m)))
                       | None => None
                       end
           end.

(** ** [Push]

<<
func (lst *List[T]) Push(v T) {
	if lst.tail == nil {
		lst.head = &element[T]{val: v}
		lst.tail = lst.head
	} else {
		lst.tail.next = &element[T]{val: v}
		lst.tail = lst.tail.next
	}
}
>> *)
Definition Push (lst : ptr) (v : T) : M T unit :=
  let! t := load_tail lst in
  match t with
  | None =>
      let! e := new_element v in
      do! store_head lst e in
      let! h := load_head lst in
      store_tail lst h
  | Some _ =>
      let! t1 := load_tail lst in
      let! e := new_element v in
      do! store_next t1 e in
      let! t2 := load_tail lst in
      let! n := load_next t2 in
      store_tail lst n
  end.

(** A run of pushes, [lst.Push(v1); ...; lst.Push(vn)]. *)
Fixpoint Pushes (lst : ptr) (vs : list T) : M T unit :=
  match vs with
  | [] => ret tt
  | v :: vs' => do! Push lst v in Pushes lst vs'
  end.

End Primitives.

(** ** Loops and iterators *)

(** A loop is run on a step budget; [Timeout] says the budget ran out
    before the loop ended, [Panic] that it dereferenced [nil]. *)
Inductive result (A : Type) : Type :=
| Done (a : A)
| Panic
| Timeout.
Arguments Done {A} _.
Arguments Panic {A}.
Arguments Timeout {A}.

(** What is seen of a call [seq(yield)] within a step budget: the calls
    made to [yield] in order, each with the value passed and the boolean
    it answered; the state the consumer left; and whether [seq] has
    returned, is still running when the budget ends, or has panicked. *)
Inductive status : Type := Returned | Running | Panicked.

Record outcome (T W : Type) : Type :=
  Outcome { calls : list (T * bool); world : W; stat : status }.
Arguments Outcome {T W} _ _ _.
Arguments calls {T W} _.
Arguments world {T W} _.
Arguments stat {T W} _.

(** [yield func(T) bool]: a closure over the caller's state [W]. *)
Definition yield_func (T W : Type) : Type := T -> W -> bool * W.

(** [iter.Seq[T]], that is [func(yield func(T) bool)]. *)
Definition Seq (T W : Type) : Type := yield_func T W -> nat -> W -> outcome T W.

(** One more call to [yield], made before the calls of [o]. *)
Definition called {T W} (c : T * bool) (o : outcome T W) : outcome T W :=
  Outcome (c :: calls o) (world o) (stat o).

Section Walks.
Context {T : Type}.

(** <<
func (lst *List[T]) AllElements() []T {
	var elems []T
	for e := lst.head; e != nil; e = e.next {
		elems = append(elems, e.val)
	}
	return elems
}
>> *)
Fixpoint AllElements_loop (fuel : nat) (m : memory T) (e : ptr) (elems : list T)
  : result (list T) :=
  match fuel with
  | 0 => Timeout
  | S fuel' =>
      match e with
      | None => Done elems
      | Some a =>
          match cells m !! a with
          | None => Panic
          | Some c => AllElements_loop fuel' m (next c) (elems ++ [val c])
          end
      end
  end.

Definition AllElements (fuel : nat) (lst : ptr) (m : memory T) : result (list T) :=
  match load_head lst m with
  | None => Panic
  | Some (h, _) => AllElements_loop fuel m h []
  end.

(** The caller's state [W] holds the memory ([mem]); [yield] may change
    any of it, the walk only reads it. *)
Context {W : Type} (mem : W -> memory T).

(** <<
		for e := lst.head; e != nil; e = e.next {
			if !yield(e.val) {
				return
			}
		}
>> *)
Fixpoint All_loop (fuel : nat) (e : ptr) (yield : yield_func T W) (w : W)
  : outcome T W :=
  match fuel with
  | 0 => Outcome [] w Running
  | S fuel' =>
      match e with
      | None => Outcome [] w Returned
      | Some a =>
          match cells (mem w) !! a with
          | None => Outcome [] w Panicked
          | Some c =>
              let (continue, w1) := yield (val c) w in
              if continue then
                (* [e = e.next], read after [yield] has returned *)
                match cells (mem w1) !! a with
                | None => Outcome [(val c, true)] w1 Panicked
                | Some c1 => called (val c, true) (All_loop fuel' (next c1) yield w1)
                end
              else Outcome [(val c, false)] w1 Returned
          end
      end
  end.

(** The function literal [All] returns; it closes over [lst] only. *)
Definition All_func (lst : ptr) : Seq T W :=
  fun yield fuel w =>
    match load_head lst (mem w) with
    | None => Outcome [] w Panicked
    | Some (h, _) => All_loop fuel h yield w
    end.

(** [func (lst *List[T]) All() iter.Seq[T]]: the call only builds the
    closure; nothing is read from [lst] until the closure runs. *)
Definition All (lst : ptr) : M T (Seq T W) := ret (All_func lst).

End Walks.

(** ** [genFib] *)

(** Go's [int] is 32 or 64 bits wide, by platform. *)
Inductive arch : Type := Arch32 | Arch64.

Definition int_size (p : arch) : Z :=
  match p with Arch32 => 32 | Arch64 => 64 end.

(** Signed wrap-around of [int] arithmetic. *)
Definition wrap (p : arch) (x : Z) : Z :=
  ((x + 2 ^ (int_size p - 1)) mod 2 ^ int_size p - 2 ^ (int_size p - 1))%Z.

Section GenFib.
Context {W : Type}.

(** <<
		for {
			if !yield(a) {
				return
			}
			a, b = b, a+b
		}
>> *)
Fixpoint genFib_loop (p : arch) (fuel : nat) (a b : Z) (yield : yield_func Z W) (w : W)
  : outcome Z W :=
  match fuel with
  | 0 => Outcome [] w Running
  | S fuel' =>
      let (continue, w1) := yield a w in
      if continue then
        called (a, true) (genFib_loop p fuel' b (wrap p (a + b)) yield w1)
      else Outcome [(a, false)] w1 Returned
  end.

(** [func genFib() iter.Seq[int]], with [a, b := 1, 1]. *)
Definition genFib (p : arch) : Seq Z W :=
  fun yield fuel w => genFib_loop p fuel 1 1 yield w.

End GenFib.

(** ** Consumers *)

(** Modelled from the spec: [slices.Collect] belongs to the Go standard
    library; it drives the sequence with a consumer that appends each value
    and always answers [true], and returns the slice once the sequence has
    returned. *)
Definition Collect {T W} (seq : Seq T (list T * W)) (fuel : nat) (w : W)
  : result (list T) :=
  let o := seq (fun v sw => (true, (fst sw ++ [v], snd sw))) fuel ([], w) in
  match stat o with
  | Returned => Done (fst (world o))
  | Running => Timeout
  | Panicked => Panic
  end.

(** A consumer that counts its calls and answers [false] at the [n]-th. *)
Definition stop_at {T} (n : nat) : yield_func T nat :=
  fun _ count => (S count <? n, S count).

(** A consumer with a state of its own, in a caller that also holds a
    memory [M] the consumer does not touch. *)
Definition beside {T W M} (yield : yield_func T W) : yield_func T (W * M) :=
  fun v wm => (fst (yield v (fst wm)), (snd (yield v (fst wm)), snd wm)).

(** The loop body of [main]'s [for n := range genFib()]: [break] once
    [n >= 10], print [n] otherwise. *)
Definition print_below_10 : yield_func Z (list Z) :=
  fun n out => if (10 <=? n)%Z then (false, out) else (true, out ++ [n]).

(** A consumer that captures the [List] it walks and pushes every value it
    is given back onto it. *)
Definition push_back {T} (lst : ptr) : yield_func T (memory T) :=
  fun v m => match Push lst v m with
             | Some (_, m') => (true, m')
             | None => (false, m)
             end.

(** A consumer that pushes the value it is given onto the [List] and
    cancels: the body [lst.Push(v); break] of a [range] loop. *)
Definition push_once {T} (lst : ptr) : yield_func T (memory T) :=
  fun v m => match Push lst v m with
             | Some (_, m') => (false, m')
             | None => (false, m)
             end.

(** What a consumer answers, and the state it ends in, when it is called on
    the values [vs] in turn. *)
Fixpoint feed {T W} (yield : yield_func T W) (vs : list T) (w : W) : list bool * W :=
  match vs with
  | [] => ([], w)
  | v :: vs' =>
      let (b, w1) := yield v w in
      let (bs, w2) := feed yield vs' w1 in
      (b :: bs, w2)
  end.

(** A consumer that leaves the memory as it found it. *)
Definition preserves_mem {T W} (mem : W -> memory T) (yield : yield_func T W) : Prop :=
  forall v w, mem (snd (yield v w)) = mem w.

(** ** Reference semantics *)

(** The protocol over a finite source [vs]: call [yield] on each value in
    order, stop at the first [false], return when the values are used up. *)
Fixpoint drive {T W} (yield : yield_func T W) (vs : list T) (w : W) : outcome T W :=
  match vs with
  | [] => Outcome [] w Returned
  | v :: vs' =>
      let (continue, w1) := yield v w in
      if continue then called (v, true) (drive yield vs' w1)
      else Outcome [(v, false)] w1 Returned
  end.

(** What any run of the protocol looks like, whatever the source: a run
    that has made no call yet; a call answered [false], after which the
    producer has returned; or a call answered [true] followed by a run from
    the state the consumer left. *)
Inductive conforms {T W} (yield : yield_func T W) : W -> outcome T W -> Prop :=
| conforms_idle w st :
    conforms yield w (Outcome [] w st)
| conforms_cancel w v w1 :
    yield v w = (false, w1) ->
    conforms yield w (Outcome [(v, false)] w1 Returned)
| conforms_continue w v w1 o :
    yield v w = (true, w1) ->
    conforms yield w1 o ->
    conforms yield w (called (v, true) o).

(** The accumulators [a, b] of [genFib] after [n] rounds of
    [a, b = b, a+b]. *)
Fixpoint fib_state (p : arch) (n : nat) (a b : Z) : Z * Z :=
  match n with
  | 0 => (a, b)
  | S n' => fib_state p n' b (wrap p (a + b))
  end.

(** The Fibonacci numbers, [F(1) = F(2) = 1]. *)
Fixpoint fib (n : nat) : Z :=
  match n with
  | 0 => 0%Z
  | S n' => match n' with
            | 0 => 1%Z
            | S n'' => (fib n' + fib n'')%Z
            end
  end.

(** The same numbers by iteration, for computing. *)
Fixpoint fib_iter (n : nat) (a b : Z) : Z :=
  match n with
  | 0 => a
  | S n' => fib_iter n' b (a + b)%Z
  end.

(** The first [n] Fibonacci numbers as [int]s. *)
Definition fib_values (p : arch) (n : nat) : list Z :=
  map (fun i => wrap p (fib i)) (seq 1 n).

(** The largest [int]. *)
Definition max_int (p : arch) : Z := (2 ^ (int_size p - 1) - 1)%Z.

(** ** The chain a [List] denotes *)

Section Chain.
Context {T : Type}.
Implicit Types (cs : list (element T)) (m : memory T) (p : ptr)
  (addrs : list nat) (vs : list T).

(** [chain cs p addrs vs]: following [next] from [p] in the cells [cs]
    visits exactly the addresses [addrs], which hold the values [vs], and
    then reaches [nil]. *)
Inductive chain cs : ptr -> list nat -> list T -> Prop :=
| chain_nil : chain cs None [] []
| chain_cons a nx v addrs vs :
    cs !! a = Some (Element nx v) ->
    chain cs nx addrs vs ->
    chain cs (Some a) (a :: addrs) (v :: vs).

(** [is_list m lst addrs vs]: [lst] points to a [List] whose [head] starts
    a chain over the distinct nodes [addrs] with values [vs], and whose
    [tail] is the last of these nodes ([nil] when there is none). *)
Definition is_list m (lst : ptr) addrs vs : Prop :=
  exists a l, lst = Some a /\ lists m !! a = Some l /\
    chain (cells m) (head l) addrs vs /\
    NoDup addrs /\
    tail l = last addrs.

(** The invariant of a [List]: [tail] is [nil] exactly when [head] is, and
    otherwise [tail] is, among the nodes reached from [head] along [next],
    the one and only node whose [next] is [nil]. *)
Definition tail_invariant m (lst : ptr) : Prop :=
  exists a l addrs vs, lst = Some a /\ lists m !! a = Some l /\
    chain (cells m) (head l) addrs vs /\
    (tail l = None <-> head l = None) /\
    (forall t, tail l = Some t ->
       t ∈ addrs /\
       forall b c, b ∈ addrs -> cells m !! b = Some c ->
                   (next c = None <-> b = t)).

End Chain.

(** ** The programs of [main] *)

(** [lst := List[T]{}], the pushes, then [slices.Collect(lst.All())]. *)
Definition collect_pushes {T} (vs : list T) (fuel : nat) (m0 : memory T)
  : result (list T) :=
  match (let! lst := new_List in do! Pushes lst vs in All snd lst) m0 with
  | Some (sq, m) => Collect sq fuel m
  | None => Panic
  end.

(** [lst := List[T]{}], the pushes, then [lst.AllElements()]. *)
Definition elements_pushes {T} (vs : list T) (fuel : nat) (m0 : memory T)
  : result (list T) :=
  match (let! lst := new_List in do! Pushes lst vs in ret lst) m0 with
  | Some (lst, m) => AllElements fuel lst m
  | None => Panic
  end.

(** The memory of [main] after [lst.Push(10); lst.Push(13); lst.Push(23)]. *)
Definition main_memory : memory Z :=
  Memory [MkList (Some 0) (Some 2)]
         [Element (Some 1) 10%Z; Element (Some 2) 13%Z; Element None 23%Z].

(** ** [SlicesIndex]

<<
func SlicesIndex[S ~[]E, E comparable](s S, v E) int {
	for i := range s {
		if v == s[i] {
			return i
		}
	}
	return -1
}
>> *)
Section SlicesIndex.
Context {E : Type} `{EqDecision E}.



End SlicesIndex.

(** ** Several [List]s in one memory *)

(** Every [List] of the memory is well formed, [reps] giving for each its
    nodes and its elements, and no two [List]s share a node. *)
Definition lists_wf {T} (m : memory T) (reps : list (list nat * list T)) : Prop :=
  length reps = length (lists m) /\
  (forall i addrs vs, reps !! i = Some (addrs, vs) -> is_list m (Some i) addrs vs) /\
  (forall i j ai vi aj vj, i <> j ->
     reps !! i = Some (ai, vi) -> reps !! j = Some (aj, vj) ->
     forall a, a ∈ ai -> a ∈ aj -> False).

(** [segment cs p vs q]: following [next] from [p] visits nodes holding
    the values [vs] and arrives at [q]; what lies behind [q] is left
    open. *)
Inductive segment {T} (cs : list (element T)) : ptr -> list T -> ptr -> Prop :=
| segment_nil p : segment cs p [] p
| segment_cons a nx v vs q :
    cs !! a = Some (Element nx v) ->
    segment cs nx vs q ->
    segment cs (Some a) (v :: vs) q.

(** A one-node cycle: the only cell is its own successor. *)
Definition cyclic_memory : memory Z :=
  Memory [MkList (Some 0) (Some 0)] [Element (Some 0) 7%Z].

(** ** Recursion

    A recursive call needs stack; the depth of calls is budgeted, and
    [None] says the budget ran out before the function returned. *)

(** <<
func fact(n int) int {
	if n == 0 {
		return 1
	}
	return n * fact(n-1)
}
>> *)
Fixpoint fact (p : arch) (depth : nat) (n : Z) : option Z :=
  match depth with
  | 0 => None
  | S depth' =>
      if (n =? 0)%Z then Some 1%Z
      else match fact p depth' (wrap p (n - 1)) with
           | Some r => Some (wrap p (n * r))
           | None => None
           end
  end.

(** The closure [fib] of the recursion snippet's [main]:
<<
	fib = func(n int) int {
		if n < 2 {
			return n
		}
		return fib(n-1) + fib(n-2)
	}
>> *)
Fixpoint main_fib (p : arch) (depth : nat) (n : Z) : option Z :=
  match depth with
  | 0 => None
  | S depth' =>
      if (n <? 2)%Z then Some n
      else match main_fib p depth' (wrap p (n - 1)) with
           | Some a =>
               match main_fib p depth' (wrap p (n - 2)) with
               | Some b => Some (wrap p (a + b))
               | None => None
               end
           | None => None
           end
  end.

(** The factorial, over the integers. *)
Fixpoint factorial (n : nat) : Z :=
  match n with
  | 0 => 1%Z
  | S n' => (Z.of_nat n * factorial n')%Z
  end.

(** ** Closures: [intSeq]

    The variable [i] a closure captures lives in a heap of [int]
    variables; the closure is its address.
<<
func intSeq() func() int {
	i := 0
	return func() int {
		i++
		return i
	}
}
>> *)
Definition intSeq (vars : list Z) : nat * list Z :=
  (length vars, vars ++ [0%Z]).

(** A call of the closure at [c]; [None] if there is no such closure. *)
Definition call_intSeq (p : arch) (c : nat) (vars : list Z) : option (Z * list Z) :=
  match vars !! c with
  | Some i => Some (wrap p (i + 1), <[c := wrap p (i + 1)]> vars)
  | None => None
  end.

(** Calls of the closures [cs], one after the other, with what each
    returned. *)
Fixpoint calls_intSeq (p : arch) (cs : list nat) (vars : list Z)
  : option (list Z * list Z) :=
  match cs with
  | [] => Some ([], vars)
  | c :: cs' =>
      match call_intSeq p c vars with
      | Some (r, vars1) =>
          match calls_intSeq p cs' vars1 with
          | Some (rs, vars2) => Some (r :: rs, vars2)
          | None => None
          end
      | None => None
      end
  end.

(** How many of the calls [cs] went to the closure [c]. *)
Definition calls_to (c : nat) (cs : list nat) : nat :=
  length (filter (fun c' => c' = c) cs).

(** ** Functions: [plus], [plusPlus], [sum] *)

(** [func plus(a int, b int) int { return a + b }] *)
Definition plus (p : arch) (a b : Z) : Z := wrap p (a + b).

(** [func plusPlus(a, b, c int) int { return a + b + c }] *)
Definition plusPlus (p : arch) (a b c : Z) : Z := wrap p (wrap p (a + b) + c).

(** <<
func sum(nums ...int) {
	fmt.Print(nums, " ")
	total := 0
	for _, num := range nums {
		total += num
	}
	fmt.Println(total)
}
>> *)
Fixpoint sum_loop (p : arch) (total : Z) (nums : list Z) : Z :=
  match nums with
  | [] => total
  | num :: nums' => sum_loop p (wrap p (total + num)) nums'
  end.

(** What [sum] prints: the arguments, then the total. *)
Definition sum (p : arch) (nums : list Z) : list Z * Z :=
  (nums, sum_loop p 0%Z nums).

(** The sum of a list of integers, unbounded. *)
Definition total_of (nums : list Z) : Z := foldr Z.add 0%Z nums.

(** ** Enums: [ServerState] *)

(** A call that returns a value or panics with a message. *)
Inductive or_panic (A : Type) : Type :=
| Returns (a : A)
| Panics (msg : string).
Arguments Returns {A} _.
Arguments Panics {A} _.

(** [type ServerState int], with the constants [iota] numbers. *)
Definition StateIdle : Z := 0.
Definition StateConnected : Z := 1.
Definition StateError : Z := 2.
Definition StateRetrying : Z := 3.

(** [var stateName = map[ServerState]string{...}] *)
Definition stateName : gmap Z string :=
  {[ StateIdle := "idle"%string;
     StateConnected := "connected"%string;
     StateError := "error"%string;
     StateRetrying := "retrying"%string ]}.

(** [func (ss ServerState) String() string { return stateName[ss] }]: a
    missing key reads as the zero value, the empty string. *)
Definition ServerState_String (ss : Z) : string :=
  default ""%string (stateName !! ss).

(** <<
func transition(s ServerState) ServerState {
	switch s {
	case StateIdle:
		return StateConnected
	case StateConnected, StateRetrying:
		return StateIdle
	case StateError:
		return StateError
	default:
		panic(fmt.Errorf("unknown state: %s", s))
	}
}
>>
    [%s] formats a [ServerState] through its [String] method. *)
Definition transition (s : Z) : or_panic Z :=
  if (s =? StateIdle)%Z then Returns StateConnected
  else if ((s =? StateConnected) || (s =? StateRetrying))%Z then Returns StateIdle
  else if (s =? StateError)%Z then Returns StateError
  else Panics ("unknown state: " ++ ServerState_String s)%string.

(** [n] transitions in a row, as [main] takes two. *)
Fixpoint transitions (n : nat) (s : Z) : or_panic Z :=
  match n with
  | 0 => Returns s
  | S n' => match transition s with
            | Returns s' => transitions n' s'
            | Panics msg => Panics msg
            end
  end.

(** The states that have a name. *)
Definition declared (s : Z) : Prop :=
  s = StateIdle \/ s = StateConnected \/ s = StateError \/ s = StateRetrying.

(** ** Errors *)

(** An [error] is a pointer, here [id], to an object holding a message
    ([errors.New], [fmt.Errorf] without [%w]) or a message and the error
    it wraps ([fmt.Errorf] with [%w]); two errors are [==] when they are
    the same pointer. The [nil] error is [None]. *)
Inductive error : Type :=
| errorString (id : nat) (s : string)
| wrapError (id : nat) (msg : string) (err : error).

Definition error_id (e : error) : nat :=
  match e with
  | errorString id _ => id
  | wrapError id _ _ => id
  end.

(** The method [Error()]. *)
Definition Error (e : error) : string :=
  match e with
  | errorString _ s => s
  | wrapError _ msg _ => msg
  end.

(** [errors.Is], of the standard library, by the snippet's account of it:
    it checks that the error, or any error in its chain, is the given
    error value. *)
Fixpoint errors_Is_chain (err target : error) : bool :=
  (error_id err =? error_id target) ||
  match err with
  | errorString _ _ => false
  | wrapError _ _ inner => errors_Is_chain inner target
  end.

Definition errors_Is (err target : option error) : bool :=
  match err, target with
  | Some e, Some t => errors_Is_chain e t
  | None, None => true
  | _, _ => false
  end.

(** The sentinel errors, allocated first when the package is set up:
<<
var ErrOutOfTea = fmt.Errorf("no more tea available")
var ErrPower = fmt.Errorf("can't boil water")
>> *)
Definition ErrOutOfTea : error := errorString 0 "no more tea available".
Definition ErrPower : error := errorString 1 "can't boil water".

(** <<
func f(arg int) (int, error) {
	if arg == 42 {
		return -1, errors.New("can't work with 42")
	}
	return arg + 3, nil
}
>>
    [next] is the next free pointer; the function returns it updated. *)
Definition f (p : arch) (arg : Z) (next : nat) : Z * option error * nat :=
  if (arg =? 42)%Z
  then ((-1)%Z, Some (errorString next "can't work with 42"), S next)
  else (wrap p (arg + 3), None, next).

(** <<
func makeTea(arg int) error {
	if arg == 2 {
		return ErrOutOfTea
	} else if arg == 4 {
		return fmt.Errorf("making tea: %w", ErrPower)
	}
	return nil
}
>> *)
Definition makeTea (arg : Z) (next : nat) : option error * nat :=
  if (arg =? 2)%Z then (Some ErrOutOfTea, next)
  else if (arg =? 4)%Z
  then (Some (wrapError next ("making tea: " ++ Error ErrPower) ErrPower), S next)
  else (None, next).

(** The line [main] prints for [makeTea(i)]:
<<
		if err := makeTea(i); err != nil {
			if errors.Is(err, ErrOutOfTea) {
				fmt.Println("We should buy new tea!")
			} else if errors.Is(err, ErrPower) {
				fmt.Println("Now it is dark.")
			} else {
				fmt.Printf("unknown error: %s\n", err)
			}
			continue
		}
		fmt.Println("Tea is ready!")
>> *)
Definition tea_line (i : Z) (next : nat) : string :=
  match (makeTea i next).1 with
  | Some err =>
      if errors_Is (Some err) (Some ErrOutOfTea) then "We should buy new tea!"
      else if errors_Is (Some err) (Some ErrPower) then "Now it is dark."
      else ("unknown error: " ++ Error err)
  | None => "Tea is ready!"
  end%string.

Example push3 :
  (let! lst := new_List in do! Pushes lst [10; 13; 23]%Z in ret lst) (Memory [] [])
  = Some (Some 0, Memory [MkList (Some 0) (Some 2)]
                         [Element (Some 1) 10%Z; Element (Some 2) 13%Z; Element None 23%Z]).
Proof. reflexivity. Qed.

(** ** Facts about chains *)

Section ChainFacts.
Context {T : Type}.
Implicit Types (cs : list (element T)) (m : memory T) (p : ptr)
  (addrs : list nat) (vs : list T).

Lemma chain_length cs p addrs vs :
  chain cs p addrs vs -> length addrs = length vs.
Proof. induction 1; simpl; congruence. Qed.

Lemma chain_bound cs p addrs vs a :
  chain cs p addrs vs -> a ∈ addrs -> a < length cs.
Proof.
  induction 1 as [|a0 nx v addrs vs Hc _ IH]; intros Hin.
  - inversion Hin.
  - apply elem_of_cons in Hin as [->|Hin]; [|auto].
    eapply lookup_lt_Some; eauto.
Qed.

(** A chain is a function of the cells and of its first pointer. *)
Lemma chain_inj cs p addrs vs addrs' vs' :
  chain cs p addrs vs -> chain cs p addrs' vs' -> addrs = addrs' /\ vs = vs'.
Proof.
  intros H; revert addrs' vs'.
  induction H as [|a nx v addrs vs Hc _ IH]; intros addrs' vs' H'.
  - inversion H'; auto.
  - inversion H' as [|a' nx' v' addrs0 vs0 Hc' Hch']; subst.
    rewrite Hc in Hc'; inversion Hc'; subst.
    destruct (IH _ _ Hch') as [-> ->]; auto.
Qed.

(** Cells outside the chain do not matter. *)
Lemma chain_agree cs cs' p addrs vs :
  chain cs p addrs vs ->
  (forall a, a ∈ addrs -> cs' !! a = cs !! a) ->
  chain cs' p addrs vs.
Proof.
  induction 1 as [|a nx v addrs vs Hc _ IH]; intros Hag.
  - constructor.
  - econstructor.
    + rewrite Hag; [eassumption | apply elem_of_cons; auto].
    + apply IH. intros b Hb. apply Hag, elem_of_cons; auto.
Qed.

(** The last node of a chain is the one whose [next] is [nil]. *)
Lemma chain_last cs p addrs vs t :
  chain cs p addrs vs -> last addrs = Some t ->
  exists v, cs !! t = Some (Element None v) /\ last vs = Some v.
Proof.
  induction 1 as [|a nx v addrs vs Hc Hch IH]; intros Hl; [discriminate|].
  destruct Hch as [|a' nx' v' addrs vs Hc' Hch'].
  - simpl in Hl. inversion Hl; subst. eauto.
  - apply IH in Hl as (v0 & ? & ?). exists v0; split; auto.
Qed.

Lemma chain_next_nil cs p addrs vs i a c :
  chain cs p addrs vs -> addrs !! i = Some a -> cs !! a = Some c ->
  next c = None -> S i = length addrs.
Proof.
  intros H; revert i.
  induction H as [|a0 nx v addrs vs Hc Hch IH]; intros i Hi Ha Hn; [discriminate|].
  destruct i as [|i]; simpl in *.
  - inversion Hi; subst. rewrite Hc in Ha; inversion Ha; subst. simpl in Hn; subst.
    inversion Hch; reflexivity.
  - f_equal. eapply IH; eauto.
Qed.

(** Linking a fresh cell behind the last node extends the chain. *)
Lemma chain_snoc cs p addrs vs t n v cs' :
  chain cs p addrs vs ->
  NoDup addrs ->
  last addrs = Some t ->
  n ∉ addrs ->
  (forall a, a ∈ addrs -> a ≠ t -> cs' !! a = cs !! a) ->
  (forall c, cs !! t = Some c -> cs' !! t = Some (Element (Some n) (val c))) ->
  cs' !! n = Some (Element None v) ->
  chain cs' p (addrs ++ [n]) (vs ++ [v]).
Proof.
  induction 1 as [|a nx v0 addrs vs Hc Hch IH];
    intros Hnd Hl Hn Hag Ht Hnew; [discriminate|].
  apply NoDup_cons in Hnd as [Hna Hnd].
  destruct Hch as [|a' nx' v' addrs vs Hc' Hch'].
  - simpl in Hl; inversion Hl; subst.
    simpl. econstructor; [apply (Ht _ Hc)|].
    econstructor; [exact Hnew | constructor].
  - assert (Hat : a ≠ t).
    { intros ->. apply Hna. eapply list_elem_of_lookup_2.
      rewrite <- last_lookup.  exact Hl. }
    simpl. econstructor.
    + rewrite Hag; [exact Hc | apply elem_of_cons; auto | exact Hat].
    + apply IH; auto.
      * intros Hin. apply Hn. apply elem_of_cons; auto.
      * intros b Hb. apply Hag. apply elem_of_cons; auto.
Qed.

End ChainFacts.


(** ** What [Push] does to the memory *)

Section PushFacts.
Context {T : Type}.
Implicit Types (m : memory T) (l : List T) (v : T).

(** The [if] branch: the [List] is empty. *)
Lemma Push_nil_tail m a l v :
  lists m !! a = Some l -> tail l = None ->
  Push (Some a) v m =
    Some (tt, Memory (<[a := MkList (Some (length (cells m))) (Some (length (cells m)))]> (lists m))
                     (cells m ++ [Element None v])).
Proof.
  intros Hl Ht. unfold Push, bind, load_tail, load_head, store_head, store_tail,
    load_List, store_List, new_element, bind, ret; simpl.
  rewrite Hl, Ht; simpl. rewrite Hl; simpl.
  assert (Hlt : a < length (lists m)) by (eapply lookup_lt_Some; eauto).
  rewrite list_lookup_insert_eq by exact Hlt. simpl.
  rewrite list_lookup_insert_eq by exact Hlt. simpl.
  rewrite list_insert_insert_eq. reflexivity.
Qed.

(** The [else] branch: the new cell is linked behind the cell [tail]
    points to, and [tail] moves to it. *)
Lemma Push_some_tail m a l t c v :
  lists m !! a = Some l -> tail l = Some t -> cells m !! t = Some c ->
  Push (Some a) v m =
    Some (tt, Memory (<[a := MkList (head l) (Some (length (cells m)))]> (lists m))
                     (<[t := Element (Some (length (cells m))) (val c)]>
                        (cells m ++ [Element None v]))).
Proof.
  intros Hl Ht Hc. unfold Push, bind, load_tail, load_next, store_next, store_tail,
    load_List, store_List, load_element, new_element, bind, ret; simpl.
  rewrite Hl, Ht; simpl. rewrite Hl, Ht; simpl.
  assert (Htl : t < length (cells m)) by (eapply lookup_lt_Some; eauto).
  rewrite (lookup_app_l _ _ _ Htl), Hc; simpl.
  rewrite Hl, Ht; simpl.
  rewrite list_lookup_insert_eq by (rewrite length_app; lia). simpl.
  rewrite Hl. reflexivity.
Qed.

(** [Push] on a [nil] receiver panics. *)
Lemma Push_nil_receiver m v : Push None v m = None.
Proof. reflexivity. Qed.

(** [Push] on a well-formed [List] never panics and appends one node. *)
Lemma Push_is_list m lst addrs vs v :
  is_list m lst addrs vs ->
  exists m', Push lst v m = Some (tt, m') /\
    is_list m' lst (addrs ++ [length (cells m)]) (vs ++ [v]) /\
    length (lists m') = length (lists m) /\
    length (cells m') = S (length (cells m)).
Proof.
  intros (a & l & -> & Hl & Hch & Hnd & Ht).
  assert (Hla : a < length (lists m)) by (eapply lookup_lt_Some; eauto).
  assert (Hfresh : length (cells m) ∉ addrs).
  { intros Hin. pose proof (chain_bound _ _ _ _ _ Hch Hin). lia. }
  destruct (last addrs) as [t|] eqn:Hlast.
  - destruct (chain_last _ _ _ _ _ Hch Hlast) as (vt & Hct & _).
    eexists. split; [eapply Push_some_tail; eauto|]. simpl.
    assert (Htl : t < length (cells m)) by (eapply lookup_lt_Some; eauto).
    split; [|split; [apply length_insert | rewrite length_insert, length_app; simpl; lia]].
    exists a, (MkList (head l) (Some (length (cells m)))).
    split; [reflexivity|]. simpl.
    split; [apply list_lookup_insert_eq; exact Hla|].
    split; [|split].
    + eapply chain_snoc; eauto.
      * intros b Hb Hbt. rewrite list_lookup_insert_ne by congruence.
        apply lookup_app_l. eapply chain_bound; eauto.
      * intros c Hc. rewrite list_lookup_insert_eq by (rewrite length_app; lia).
        rewrite Hct in Hc. inversion Hc; subst. reflexivity.
      * rewrite list_lookup_insert_ne by lia.
        rewrite lookup_app_r by lia. rewrite Nat.sub_diag. reflexivity.
    + apply NoDup_app. split; [exact Hnd|]. split; [|apply NoDup_singleton].
      intros x Hx Hx'. apply list_elem_of_singleton in Hx'. subst. auto.
    + rewrite last_snoc. reflexivity.
  - apply last_None in Hlast. subst addrs. inversion Hch as [Hh| ]; subst.
    eexists. split; [eapply Push_nil_tail; eauto|]. simpl.
    split; [|split; [apply length_insert | rewrite length_app; simpl; lia]].
    exists a, (MkList (Some (length (cells m))) (Some (length (cells m)))).
    split; [reflexivity|]. simpl.
    split; [apply list_lookup_insert_eq; exact Hla|].
    split; [|split].
    + econstructor; [|constructor].
      rewrite lookup_app_r by lia. rewrite Nat.sub_diag. reflexivity.
    + apply NoDup_singleton.
    + reflexivity.
Qed.

(** The zero value [List[T]{}] is a well-formed empty [List]. *)
Lemma zero_is_list m a :
  lists m !! a = Some (MkList None None) -> is_list m (Some a) [] [].
Proof.
  intros Hl. exists a, (MkList None None). simpl.
  repeat split; auto; constructor.
Qed.

Lemma Pushes_is_list ws : forall m lst addrs vs,
  is_list m lst addrs vs ->
  exists m', Pushes lst ws m = Some (tt, m') /\
    is_list m' lst (addrs ++ seq (length (cells m)) (length ws)) (vs ++ ws) /\
    length (lists m') = length (lists m) /\
    length (cells m') = length (cells m) + length ws.
Proof.
  induction ws as [|w ws IH]; intros m lst addrs vs H; simpl.
  - exists m. rewrite !app_nil_r. split; [reflexivity|]. split; [exact H|]. lia.
  - destruct (Push_is_list _ _ _ _ w H) as (m1 & HP & H1 & Hl1 & Hc1).
    destruct (IH _ _ _ _ H1) as (m2 & HP2 & H2 & Hl2 & Hc2).
    exists m2. unfold bind. rewrite HP. split; [exact HP2|].
    rewrite Hc1 in H2. rewrite <- !app_assoc in H2. simpl in H2.
    split; [exact H2|]. lia.
Qed.

End PushFacts.

(** ** Runs of the protocol *)

Section Protocol.
Context {T W : Type}.
Implicit Types (yield : yield_func T W) (w : W) (o : outcome T W).

(** A call answered [false] is the last one, and the producer has
    returned. *)
Lemma conforms_cancel_last yield w o k v :
  conforms yield w o -> calls o !! k = Some (v, false) ->
  length (calls o) = S k /\ stat o = Returned.
Proof.
  intros H; revert k.
  induction H as [w st|w v0 w1 Hy|w v0 w1 o Hy Ho IH]; intros k Hk; simpl in *.
  - discriminate.
  - destruct k; [auto | discriminate].
  - destruct k as [|k]; [discriminate|].
    destruct (IH _ Hk) as [-> ->]; auto.
Qed.

(** Every call but the last was answered [true]. *)
Lemma conforms_earlier_true yield w o j v b :
  conforms yield w o -> calls o !! j = Some (v, b) -> S j < length (calls o) ->
  b = true.
Proof.
  intros H; revert j.
  induction H as [w st|w v0 w1 Hy|w v0 w1 o Hy Ho IH]; intros j Hj Hlt; simpl in *.
  - discriminate.
  - lia.
  - destruct j as [|j]; simpl in *.
    + inversion Hj; reflexivity.
    + eapply IH; [eassumption | lia].
Qed.

(** The answers logged are the consumer's, and the final state is the one
    its calls produced: the producer changed nothing by itself. *)
Lemma conforms_feed yield w o :
  conforms yield w o ->
  feed yield (map fst (calls o)) w = (map snd (calls o), world o).
Proof.
  induction 1 as [w st|w v0 w1 Hy|w v0 w1 o Hy Ho IH]; simpl.
  - reflexivity.
  - rewrite Hy. reflexivity.
  - rewrite Hy, IH. reflexivity.
Qed.

Lemma conforms_preserves (mem : W -> memory T) yield w o :
  preserves_mem mem yield -> conforms yield w o -> mem (world o) = mem w.
Proof.
  intros Hp. induction 1 as [w st|w v0 w1 Hy|w v0 w1 o Hy Ho IH]; simpl.
  - reflexivity.
  - rewrite <- (Hp v0 w), Hy. reflexivity.
  - rewrite IH, <- (Hp v0 w), Hy. reflexivity.
Qed.

(** Once the last call logged was answered [false], the producer has
    returned. *)
Lemma conforms_last_reply yield w o v b :
  conforms yield w o -> last (calls o) = Some (v, b) -> b = false ->
  stat o = Returned.
Proof.
  induction 1 as [w st|w v0 w1 Hy|w v0 w1 o Hy Ho IH]; simpl; intros Hl Hb.
  - discriminate.
  - reflexivity.
  - destruct (calls o) as [|c cs] eqn:Hc; simpl in Hl.
    + inversion Hl; subst. discriminate.
    + apply IH; auto.
Qed.

Lemma drive_conforms yield vs w : conforms yield w (drive yield vs w).
Proof.
  revert w. induction vs as [|v vs IH]; intros w; simpl.
  - constructor.
  - destruct (yield v w) as [[|] w1] eqn:Hy.
    + eapply conforms_continue; eauto.
    + eapply conforms_cancel; eauto.
Qed.

Lemma drive_returned yield vs w : stat (drive yield vs w) = Returned.
Proof.
  revert w. induction vs as [|v vs IH]; intros w; simpl; [reflexivity|].
  destruct (yield v w) as [[|] w1]; simpl; auto.
Qed.

(** The values handed out are an initial segment of the source. *)
Lemma drive_prefix yield vs w :
  map fst (calls (drive yield vs w)) = take (length (calls (drive yield vs w))) vs.
Proof.
  revert w. induction vs as [|v vs IH]; intros w; simpl; [reflexivity|].
  destruct (yield v w) as [[|] w1]; simpl.
  - f_equal. apply IH.
  - rewrite take_0. reflexivity.
Qed.

(** Unless it is cancelled, the run hands out the whole source. *)
Lemma drive_all yield vs w :
  (forall c, c ∈ calls (drive yield vs w) -> snd c = true) ->
  map fst (calls (drive yield vs w)) = vs.
Proof.
  revert w. induction vs as [|v vs IH]; intros w; simpl; [reflexivity|].
  destruct (yield v w) as [[|] w1]; simpl; intros Hall.
  - f_equal. apply IH. intros c Hc. apply Hall. apply elem_of_cons; auto.
  - specialize (Hall (v, false)). simpl in Hall.
    discriminate Hall. apply elem_of_cons; auto.
Qed.

End Protocol.

(** ** The walks over a chain *)

Section WalkFacts.
Context {T W : Type} (mem : W -> memory T).
Implicit Types (yield : yield_func T W) (w : W) (m : memory T).

Lemma AllElements_loop_chain m p addrs vs :
  chain (cells m) p addrs vs ->
  forall fuel elems, length vs < fuel ->
    AllElements_loop fuel m p elems = Done (elems ++ vs).
Proof.
  induction 1 as [|a nx v addrs vs Hc _ IH]; intros fuel elems Hf;
    (destruct fuel as [|fuel]; [simpl in Hf; lia|]); simpl.
  - rewrite app_nil_r. reflexivity.
  - rewrite Hc. simpl. rewrite IH by (simpl in Hf; lia).
    rewrite <- app_assoc. reflexivity.
Qed.

Lemma AllElements_is_list m lst addrs vs fuel :
  is_list m lst addrs vs -> length vs < fuel ->
  AllElements fuel lst m = Done vs.
Proof.
  intros (a & l & -> & Hl & Hch & _) Hf.
  unfold AllElements, load_head, load_List, bind, ret. rewrite Hl.
  apply (AllElements_loop_chain _ _ _ _ Hch fuel [] Hf).
Qed.

(** Whatever the memory and the consumer, [All]'s loop follows the
    protocol. *)
Lemma All_loop_conforms yield fuel : forall e w,
  conforms yield w (All_loop mem fuel e yield w).
Proof.
  induction fuel as [|fuel IH]; intros e w; simpl; [constructor|].
  destruct e as [a|]; [|constructor].
  destruct (cells (mem w) !! a) as [c|]; [|constructor].
  destruct (yield (val c) w) as [[|] w1] eqn:Hy.
  - destruct (cells (mem w1) !! a) as [c1|].
    + eapply conforms_continue; eauto.
    + change (Outcome [(val c, true)] w1 Panicked)
        with (called (val c, true) (Outcome [] w1 Panicked)).
      eapply conforms_continue; eauto. constructor.
  - eapply conforms_cancel; eauto.
Qed.

(** Once the loop has ended within a budget, a larger budget changes
    nothing. *)
Lemma All_loop_stable yield fuel : forall e w fuel',
  stat (All_loop mem fuel e yield w) <> Running -> fuel <= fuel' ->
  All_loop mem fuel' e yield w = All_loop mem fuel e yield w.
Proof.
  induction fuel as [|fuel IH]; intros e w fuel' Hs Hle; simpl in *; [congruence|].
  destruct fuel' as [|fuel']; [lia|]. simpl.
  destruct e as [a|]; [|reflexivity].
  destruct (cells (mem w) !! a) as [c|]; [|reflexivity].
  destruct (yield (val c) w) as [[|] w1]; [|reflexivity].
  destruct (cells (mem w1) !! a) as [c1|]; [|reflexivity].
  simpl in Hs. rewrite (IH _ _ fuel') by (auto; lia). reflexivity.
Qed.

(** On a chain that the consumer leaves alone, the loop is the protocol
    run over the chain's values. *)
Lemma All_loop_drive yield p addrs vs :
  preserves_mem mem yield ->
  forall w, chain (cells (mem w)) p addrs vs ->
  forall fuel, length vs < fuel ->
    All_loop mem fuel p yield w = drive yield vs w.
Proof.
  intros Hp w Hch. remember (cells (mem w)) as cs eqn:Hcs. revert w Hcs.
  induction Hch as [|a nx v addrs vs Hc _ IH]; intros w Hcs fuel Hf;
    (destruct fuel as [|fuel]; [simpl in Hf; lia|]); simpl.
  - reflexivity.
  - rewrite <- Hcs, Hc. simpl.
    pose proof (Hp v w) as Hm.
    destruct (yield v w) as [[|] w1]; simpl in Hm; [|reflexivity].
    rewrite Hm, <- Hcs, Hc. simpl.
    rewrite (IH w1) by (try congruence; simpl in Hf; lia). reflexivity.
Qed.

Lemma All_func_conforms lst yield fuel w :
  conforms yield w (All_func mem lst yield fuel w).
Proof.
  unfold All_func. destruct (load_head lst (mem w)) as [[h ?]|].
  - apply All_loop_conforms.
  - constructor.
Qed.

Lemma All_func_stable lst yield fuel fuel' w :
  stat (All_func mem lst yield fuel w) <> Running -> fuel <= fuel' ->
  All_func mem lst yield fuel' w = All_func mem lst yield fuel w.
Proof.
  unfold All_func. destruct (load_head lst (mem w)) as [[h ?]|]; [|reflexivity].
  apply All_loop_stable.
Qed.

Lemma All_func_drive lst yield w addrs vs fuel :
  preserves_mem mem yield ->
  is_list (mem w) lst addrs vs -> length vs < fuel ->
  All_func mem lst yield fuel w = drive yield vs w.
Proof.
  intros Hp (a & l & -> & Hl & Hch & _) Hf.
  unfold All_func, load_head, load_List, bind, ret. rewrite Hl.
  eapply All_loop_drive; eauto.
Qed.

(** Cancelled at the call after the first [n]: the loop is exactly these
    [n + 1] calls, for any budget that covers them. *)
Lemma All_loop_cancel yield n :
  preserves_mem mem yield ->
  forall p addrs vs x w fuel,
  chain (cells (mem w)) p addrs vs ->
  vs !! n = Some x ->
  fst (feed yield (take n vs) w) = repeat true n ->
  fst (yield x (snd (feed yield (take n vs) w))) = false ->
  n < fuel ->
  All_loop mem fuel p yield w =
    Outcome (map (fun v => (v, true)) (take n vs) ++ [(x, false)])
            (snd (yield x (snd (feed yield (take n vs) w)))) Returned.
Proof.
  intros Hp. induction n as [|n IH]; intros p addrs vs x w fuel Hch Hx Hfeed Hno Hf;
    (destruct fuel as [|fuel]; [lia|]);
    (destruct Hch as [|a nx v addrs vs Hc Hch]; [discriminate|]); simpl in *.
  - inversion Hx; subst. rewrite Hc. simpl.
    destruct (yield x w) as [[|] w1]; simpl in *; [discriminate | reflexivity].
  - rewrite Hc. simpl. pose proof (Hp v w) as Hm.
    destruct (yield v w) as [[|] w1]; simpl in *.
    + rewrite Hm, Hc. simpl.
      destruct (feed yield (take n vs) w1) as [bs w2] eqn:Hfd. simpl in *.
      rewrite (IH nx addrs vs x w1 fuel); auto.
      * rewrite Hfd. reflexivity.
      * rewrite Hm. exact Hch.
      * rewrite Hfd. simpl. congruence.
      * rewrite Hfd. exact Hno.
      * lia.
    + destruct (feed yield (take n vs) w1) as [bs w2]. simpl in Hfeed. discriminate.
Qed.

Lemma All_func_cancel lst yield n addrs vs x w fuel :
  preserves_mem mem yield ->
  is_list (mem w) lst addrs vs ->
  vs !! n = Some x ->
  fst (feed yield (take n vs) w) = repeat true n ->
  fst (yield x (snd (feed yield (take n vs) w))) = false ->
  n < fuel ->
  All_func mem lst yield fuel w =
    Outcome (map (fun v => (v, true)) (take n vs) ++ [(x, false)])
            (snd (yield x (snd (feed yield (take n vs) w)))) Returned.
Proof.
  intros Hp (a & l & -> & Hl & Hch & _) Hx Hfeed Hno Hf.
  unfold All_func, load_head, load_List, bind, ret. rewrite Hl.
  eapply All_loop_cancel; eauto.
Qed.

End WalkFacts.

(** [slices.Collect] over a walk. *)
Lemma drive_collect {T W} (vs : list T) : forall (acc : list T) (w : W),
  drive (fun v sw => (true, (fst sw ++ [v], snd sw))) vs (acc, w)
  = Outcome (map (fun v => (v, true)) vs) (acc ++ vs, w) Returned.
Proof.
  induction vs as [|v vs IH]; intros acc w; simpl.
  - rewrite app_nil_r. reflexivity.
  - rewrite IH. unfold called; simpl. rewrite <- app_assoc. reflexivity.
Qed.

Lemma Collect_All_is_list {T} (m : memory T) lst addrs vs fuel :
  is_list m lst addrs vs -> length vs < fuel ->
  Collect (All_func snd lst) fuel m = Done vs.
Proof.
  intros Hl Hf. unfold Collect.
  rewrite (All_func_drive snd lst _ ([], m) addrs vs fuel); auto.
  - rewrite drive_collect. reflexivity.
  - intros v w. reflexivity.
Qed.

(** ** [int] arithmetic and the Fibonacci numbers *)

Section Arith.
Local Open Scope Z_scope.

Lemma int_size_pow p :
  2 ^ int_size p = 2 * 2 ^ (int_size p - 1) /\ 0 < 2 ^ (int_size p - 1).
Proof. destruct p; simpl; split; lia. Qed.

Lemma wrap_range p x :
  - 2 ^ (int_size p - 1) <= wrap p x <= max_int p.
Proof.
  unfold wrap, max_int. destruct (int_size_pow p) as [HM HH].
  pose proof (Z.mod_pos_bound (x + 2 ^ (int_size p - 1)) (2 ^ int_size p)).
  lia.
Qed.

Lemma wrap_small p x :
  - 2 ^ (int_size p - 1) <= x <= max_int p -> wrap p x = x.
Proof.
  unfold wrap, max_int. destruct (int_size_pow p) as [HM HH]. intros Hx.
  rewrite Z.mod_small by lia. lia.
Qed.

Lemma wrap_mod p x : wrap p x mod 2 ^ int_size p = x mod 2 ^ int_size p.
Proof.
  unfold wrap. destruct (int_size_pow p) as [HM HH].
  set (N := 2 ^ int_size p) in *. set (H := 2 ^ (int_size p - 1)) in *.
  rewrite Zminus_mod_idemp_l.
  f_equal. lia.
Qed.

Lemma wrap_eq_mod p x y :
  x mod 2 ^ int_size p = y mod 2 ^ int_size p -> wrap p x = wrap p y.
Proof.
  unfold wrap. intros Hxy.
  rewrite <- (Zplus_mod_idemp_l x), <- (Zplus_mod_idemp_l y), Hxy. reflexivity.
Qed.

Lemma wrap_add p x y : wrap p (wrap p x + wrap p y) = wrap p (x + y).
Proof.
  apply wrap_eq_mod.
  rewrite Zplus_mod, !wrap_mod, <- Zplus_mod. reflexivity.
Qed.

Lemma wrap_1 p : wrap p 1 = 1.
Proof. destruct p; reflexivity. Qed.

Lemma fib_SS n : fib (S (S n)) = fib (S n) + fib n.
Proof. reflexivity. Qed.

Lemma fib_nonneg n : 0 <= fib n /\ 0 <= fib (S n).
Proof.
  induction n as [|n [IH1 IH2]]; [simpl; lia|].
  split; [exact IH2|]. rewrite fib_SS. lia.
Qed.

Lemma fib_mono n k : (n <= k)%nat -> fib n <= fib k.
Proof.
  induction 1 as [|k _ IH]; [lia|].
  destruct k as [|k]; [simpl in *; lia|].
  rewrite fib_SS. pose proof (fib_nonneg k). lia.
Qed.

Lemma fib_iter_fib n : forall i, fib_iter n (fib i) (fib (S i)) = fib (n + i).
Proof.
  induction n as [|n IH]; intros i; cbn [fib_iter]; [reflexivity|].
  rewrite Z.add_comm, <- fib_SS, IH. f_equal. lia.
Qed.

Lemma fib_eq_iter n : fib n = fib_iter n 0 1.
Proof.
  change (fib n = fib_iter n (fib 0) (fib 1)).
  rewrite (fib_iter_fib n 0), Nat.add_0_r. reflexivity.
Qed.

(** The accumulators of [genFib] hold consecutive Fibonacci numbers. *)
Lemma fib_state_fib p n : forall i,
  fib_state p n (wrap p (fib i)) (wrap p (fib (S i)))
  = (wrap p (fib (n + i)), wrap p (fib (S (n + i)))).
Proof.
  induction n as [|n IH]; intros i; cbn [fib_state]; [reflexivity|].
  rewrite wrap_add, Z.add_comm, <- fib_SS, IH.
  replace (n + S i)%nat with (S (n + i)) by lia. reflexivity.
Qed.

Lemma fib_state_start p n :
  fib_state p n 1 1 = (wrap p (fib (S n)), wrap p (fib (S (S n)))).
Proof.
  pose proof (fib_state_fib p n 1) as H.
  change (fib 1) with 1 in H. change (fib 2) with 1 in H.
  rewrite wrap_1 in H. rewrite H. replace (n + 1)%nat with (S n) by lia.
  reflexivity.
Qed.

Lemma fib_92 : fib 92 = 7540113804746346429.
Proof. rewrite fib_eq_iter. vm_compute. reflexivity. Qed.

Lemma fib_93 : fib 93 = 12200160415121876738.
Proof. rewrite fib_eq_iter. vm_compute. reflexivity. Qed.

Lemma fib_46 : fib 46 = 1836311903.
Proof. rewrite fib_eq_iter. vm_compute. reflexivity. Qed.

End Arith.

(** ** The generator *)

Section GenFibFacts.
Context {W : Type}.
Implicit Types (yield : yield_func Z W) (w : W) (p : arch).

Lemma genFib_loop_conforms p yield fuel : forall a b w,
  conforms yield w (genFib_loop p fuel a b yield w).
Proof.
  induction fuel as [|fuel IH]; intros a b w; simpl; [constructor|].
  destruct (yield a w) as [[|] w1] eqn:Hy.
  - eapply conforms_continue; eauto.
  - eapply conforms_cancel; eauto.
Qed.

Lemma genFib_loop_stable p yield fuel : forall a b w fuel',
  stat (genFib_loop p fuel a b yield w) <> Running -> (fuel <= fuel')%nat ->
  genFib_loop p fuel' a b yield w = genFib_loop p fuel a b yield w.
Proof.
  induction fuel as [|fuel IH]; intros a b w fuel' Hs Hle; simpl in *; [congruence|].
  destruct fuel' as [|fuel']; [lia|]. simpl.
  destruct (yield a w) as [[|] w1]; [|reflexivity].
  simpl in Hs. rewrite (IH _ _ _ fuel') by (auto; lia). reflexivity.
Qed.

(** The [i]-th call (from 0) is given the first accumulator after [i]
    rounds. *)
Lemma genFib_loop_value p yield fuel : forall a b w i v r,
  calls (genFib_loop p fuel a b yield w) !! i = Some (v, r) ->
  v = fst (fib_state p i a b).
Proof.
  induction fuel as [|fuel IH]; intros a b w i v r Hi; simpl in Hi; [discriminate|].
  destruct (yield a w) as [[|] w1]; simpl in Hi.
  - destruct i as [|i]; simpl in Hi; [inversion Hi; reflexivity|].
    apply IH in Hi. exact Hi.
  - destruct i as [|i]; simpl in Hi; [inversion Hi; reflexivity | discriminate].
Qed.

(** The loop has no exit of its own: within a budget it is either still
    running, having made one call per step, all answered [true]; or it has
    returned right after a call answered [false]. *)
Lemma genFib_loop_status p yield fuel : forall a b w,
  let o := genFib_loop p fuel a b yield w in
  (stat o = Running /\ length (calls o) = fuel /\
     forall c, c ∈ calls o -> snd c = true)
  \/ (stat o = Returned /\ exists v, last (calls o) = Some (v, false)).
Proof.
  induction fuel as [|fuel IH]; intros a b w; simpl.
  - left. split; [reflexivity|]. split; [reflexivity|].
    intros c Hc. inversion Hc.
  - destruct (yield a w) as [[|] w1]; simpl.
    + destruct (IH b (wrap p (a + b)) w1) as [(Hs & Hl & Ht)|(Hs & v & Hl)].
      * left. split; [exact Hs|]. split; [lia|].
        intros c Hc. apply elem_of_cons in Hc as [->|Hc]; auto.
      * right. split; [exact Hs|]. exists v.
        destruct (calls (genFib_loop p fuel b (wrap p (a + b)) yield w1));
          [discriminate | exact Hl].
    + right. split; [reflexivity|]. exists a. reflexivity.
Qed.

(** As long as the consumer answers [true], the next call is made. *)
Lemma genFib_loop_reach p yield n : forall fuel a b w vs,
  length vs = n ->
  (forall i v, vs !! i = Some v -> v = fst (fib_state p i a b)) ->
  fst (feed yield vs w) = repeat true n ->
  n < fuel ->
  exists r, calls (genFib_loop p fuel a b yield w) !! n
            = Some (fst (fib_state p n a b), r) /\
    take n (calls (genFib_loop p fuel a b yield w)) = map (fun v => (v, true)) vs.
Proof.
  induction n as [|n IH]; intros fuel a b w vs Hlen Hvs Hfeed Hf;
    (destruct fuel as [|fuel]; [lia|]); simpl.
  - destruct vs; [|discriminate]. destruct (yield a w) as [[|] w1]; simpl; eauto.
  - destruct vs as [|v0 vs]; [discriminate|]. simpl in Hlen, Hfeed.
    assert (v0 = a) as -> by (apply (Hvs 0%nat v0); reflexivity).
    destruct (yield a w) as [[|] w1]; simpl.
    + destruct (feed yield vs w1) as [bs w2] eqn:Hfd. simpl in Hfeed.
      destruct (IH fuel b (wrap p (a + b)) w1 vs) as (r & Hr & Htk).
      * lia.
      * intros i v Hi. apply (Hvs (S i) v Hi).
      * rewrite Hfd. simpl. congruence.
      * lia.
      * exists r. split; [exact Hr|]. rewrite Htk. reflexivity.
    + destruct (feed yield vs w1) as [bs w2]. simpl in Hfeed. discriminate.
Qed.

(** Under a consumer that always answers [true] the loop runs on. *)
Lemma genFib_loop_forever p yield :
  (forall v w, fst (yield v w) = true) ->
  forall fuel a b w,
    stat (genFib_loop p fuel a b yield w) = Running /\
    length (calls (genFib_loop p fuel a b yield w)) = fuel.
Proof.
  intros Hall. induction fuel as [|fuel IH]; intros a b w; simpl; [auto|].
  pose proof (Hall a w) as Ha.
  destruct (yield a w) as [c w1]. simpl in Ha. subst c. simpl.
  destruct (IH b (wrap p (a + b)) w1) as [-> ->]. auto.
Qed.

Lemma fib_values_length p n : length (fib_values p n) = n.
Proof. unfold fib_values. rewrite length_map, length_seq. reflexivity. Qed.

Lemma fib_values_lookup p n i v :
  fib_values p n !! i = Some v -> v = wrap p (fib (S i)) /\ i < n.
Proof.
  unfold fib_values. rewrite list_lookup_fmap. intros H.
  destruct (seq 1 n !! i) as [j|] eqn:Hj; [|discriminate].
  apply lookup_seq in Hj as [-> Hlt]. simpl in H. inversion H. auto.
Qed.

Lemma genFib_value p yield fuel w i v r :
  calls (genFib p yield fuel w) !! i = Some (v, r) -> v = wrap p (fib (S i)).
Proof.
  intros H. apply genFib_loop_value in H. rewrite fib_state_start in H. exact H.
Qed.

Lemma genFib_reach p yield n fuel w :
  fst (feed yield (fib_values p n) w) = repeat true n ->
  n < fuel ->
  exists r, calls (genFib p yield fuel w) !! n = Some (wrap p (fib (S n)), r) /\
    take n (calls (genFib p yield fuel w))
    = map (fun v => (v, true)) (fib_values p n).
Proof.
  intros Hfeed Hf. unfold genFib.
  destruct (genFib_loop_reach p yield n fuel 1%Z 1%Z w (fib_values p n))
    as (r & Hr & Htk); auto.
  - apply fib_values_length.
  - intros i v Hi. apply fib_values_lookup in Hi as [-> _].
    rewrite fib_state_start. reflexivity.
  - exists r. rewrite fib_state_start in Hr. auto.
Qed.

End GenFibFacts.

(** ** More on chains: distinct nodes, and the invariant *)

Section InvariantFacts.
Context {T : Type}.
Implicit Types (cs : list (element T)) (m : memory T) (p : ptr)
  (addrs : list nat) (vs : list T).

Lemma chain_drop cs p addrs vs :
  chain cs p addrs vs ->
  forall i a, addrs !! i = Some a ->
    chain cs (Some a) (drop i addrs) (drop i vs).
Proof.
  induction 1 as [|a0 nx v addrs vs Hc Hch IH]; intros i a Hi; [discriminate|].
  destruct i as [|i]; simpl in *.
  - inversion Hi; subst. econstructor; eauto.
  - apply IH; exact Hi.
Qed.

(** A chain that ends visits no node twice. *)
Lemma chain_NoDup cs p addrs vs : chain cs p addrs vs -> NoDup addrs.
Proof.
  intros Hch. apply NoDup_alt. intros i j a Hi Hj.
  pose proof (chain_drop _ _ _ _ Hch _ _ Hi) as Di.
  pose proof (chain_drop _ _ _ _ Hch _ _ Hj) as Dj.
  destruct (chain_inj _ _ _ _ _ _ Di Dj) as [He _].
  apply (f_equal length) in He. rewrite !length_drop in He.
  apply lookup_lt_Some in Hi. apply lookup_lt_Some in Hj. lia.
Qed.

Lemma chain_head_nil cs p addrs vs :
  chain cs p addrs vs -> (p = None <-> addrs = []).
Proof. destruct 1; split; intros; congruence. Qed.

Lemma is_list_tail_invariant m lst addrs vs :
  is_list m lst addrs vs -> tail_invariant m lst.
Proof.
  intros (a & l & -> & Hl & Hch & Hnd & Ht).
  exists a, l, addrs, vs. split; [reflexivity|]. split; [exact Hl|].
  split; [exact Hch|]. split.
  - rewrite Ht, (chain_head_nil _ _ _ _ Hch). apply last_None.
  - intros t Htt. rewrite Ht in Htt. split.
    + rewrite last_lookup in Htt. eapply list_elem_of_lookup_2; eauto.
    + intros b c Hb Hc. split.
      * intros Hn. apply list_elem_of_lookup in Hb as [i Hi].
        pose proof (chain_next_nil _ _ _ _ _ _ _ Hch Hi Hc Hn) as Hlen.
        rewrite last_lookup, <- Hlen in Htt. simpl in Htt. congruence.
      * intros ->. destruct (chain_last _ _ _ _ _ Hch Htt) as (v & Hv & _).
        rewrite Hv in Hc. inversion Hc. reflexivity.
Qed.

Lemma tail_invariant_is_list m lst :
  tail_invariant m lst -> exists addrs vs, is_list m lst addrs vs.
Proof.
  intros (a & l & addrs & vs & -> & Hl & Hch & Hnil & Hlast).
  exists addrs, vs, a, l. split; [reflexivity|]. split; [exact Hl|].
  split; [exact Hch|]. split; [eapply chain_NoDup; eauto|].
  destruct (tail l) as [t|] eqn:Ht.
  - destruct (Hlast t eq_refl) as [Hin Huniq].
    destruct (last addrs) as [t'|] eqn:Hl'.
    + destruct (chain_last _ _ _ _ _ Hch Hl') as (v & Hv & _).
      f_equal. symmetry. eapply Huniq; [|exact Hv|reflexivity].
      rewrite last_lookup in Hl'. eapply list_elem_of_lookup_2; eauto.
    + apply last_None in Hl'. subst. inversion Hin.
  - symmetry. apply last_None. apply (chain_head_nil _ _ _ _ Hch).
    apply Hnil. reflexivity.
Qed.

(** The first call of a walk is given the first value of the chain. *)
Lemma All_func_first {W} (mem : W -> memory T) lst yield fuel w addrs vs x r :
  is_list (mem w) lst addrs vs ->
  calls (All_func mem lst yield fuel w) !! 0 = Some (x, r) ->
  vs !! 0 = Some x.
Proof.
  intros (a & l & -> & Hl & Hch & _).
  unfold All_func, load_head, load_List, bind, ret. rewrite Hl.
  destruct fuel as [|fuel]; simpl; [discriminate|].
  destruct Hch as [|a0 nx v addrs vs Hc Hch]; simpl; [discriminate|].
  rewrite Hc. simpl.
  destruct (yield v w) as [[|] w1]; simpl.
  - destruct (cells (mem w1) !! a0); simpl; intros H; inversion H; reflexivity.
  - intros H; inversion H; reflexivity.
Qed.

End InvariantFacts.

(** ** Cancellation, from the consumer's side *)

Section CancelFacts.
Context {T W : Type}.
Implicit Types (yield : yield_func T W) (w : W).

(** If the consumer answers [true] to the first [n] values and [false] to
    the next, the run is exactly these [n + 1] calls. *)
Lemma drive_cancel yield n : forall vs x w,
  vs !! n = Some x ->
  fst (feed yield (take n vs) w) = repeat true n ->
  fst (yield x (snd (feed yield (take n vs) w))) = false ->
  drive yield vs w =
    Outcome (map (fun v => (v, true)) (take n vs) ++ [(x, false)])
            (snd (yield x (snd (feed yield (take n vs) w)))) Returned.
Proof.
  induction n as [|n IH]; intros vs x w Hx Hfeed Hno;
    (destruct vs as [|v0 vs]; [discriminate|]); simpl in *.
  - inversion Hx; subst. destruct (yield x w) as [[|] w1]; simpl in *;
      [discriminate | reflexivity].
  - destruct (yield v0 w) as [[|] w1]; simpl in *.
    + destruct (feed yield (take n vs) w1) as [bs w2] eqn:Hfd. simpl in *.
      rewrite (IH vs x w1 Hx).
      * rewrite Hfd. reflexivity.
      * rewrite Hfd. simpl. congruence.
      * rewrite Hfd. exact Hno.
    + destruct (feed yield (take n vs) w1) as [bs w2]. simpl in Hfeed. discriminate.
Qed.

End CancelFacts.

Lemma genFib_loop_cancel {W} p (yield : yield_func Z W) n : forall fuel a b w vs,
  length vs = n ->
  (forall i v, vs !! i = Some v -> v = fst (fib_state p i a b)) ->
  fst (feed yield vs w) = repeat true n ->
  fst (yield (fst (fib_state p n a b)) (snd (feed yield vs w))) = false ->
  n < fuel ->
  genFib_loop p fuel a b yield w =
    Outcome (map (fun v => (v, true)) vs ++ [(fst (fib_state p n a b), false)])
            (snd (yield (fst (fib_state p n a b)) (snd (feed yield vs w)))) Returned.
Proof.
  induction n as [|n IH]; intros fuel a b w vs Hlen Hvs Hfeed Hno Hf;
    (destruct fuel as [|fuel]; [lia|]); simpl.
  - destruct vs; [|discriminate]. simpl in *.
    destruct (yield a w) as [[|] w1]; simpl in *; [discriminate | reflexivity].
  - destruct vs as [|v0 vs]; [discriminate|]. simpl in Hlen, Hfeed, Hno. simpl.
    assert (v0 = a) as -> by (apply (Hvs 0 v0); reflexivity).
    destruct (yield a w) as [[|] w1]; simpl.
    + destruct (feed yield vs w1) as [bs w2] eqn:Hfd. simpl in Hfeed, Hno.
      rewrite (IH fuel b (wrap p (a + b)) w1 vs).
      * rewrite Hfd. reflexivity.
      * lia.
      * intros i v Hi. apply (Hvs (S i) v Hi).
      * rewrite Hfd. simpl. congruence.
      * rewrite Hfd. exact Hno.
      * lia.
    + destruct (feed yield vs w1) as [bs w2]. simpl in Hfeed. discriminate.
Qed.

Lemma genFib_cancel {W} p (yield : yield_func Z W) n fuel w :
  fst (feed yield (fib_values p n) w) = repeat true n ->
  fst (yield (wrap p (fib (S n))) (snd (feed yield (fib_values p n) w))) = false ->
  n < fuel ->
  genFib p yield fuel w =
    Outcome (map (fun v => (v, true)) (fib_values p n) ++ [(wrap p (fib (S n)), false)])
            (snd (yield (wrap p (fib (S n))) (snd (feed yield (fib_values p n) w))))
            Returned.
Proof.
  intros Hfeed Hno Hf. unfold genFib.
  pose proof (fib_state_start p n) as Hst.
  rewrite (genFib_loop_cancel p yield n fuel 1%Z 1%Z w (fib_values p n)); auto.
  - rewrite Hst. reflexivity.
  - apply fib_values_length.
  - intros i v Hi. apply fib_values_lookup in Hi as [-> _].
    rewrite fib_state_start. reflexivity.
  - rewrite Hst. exact Hno.
Qed.

Lemma main_memory_is_list : is_list main_memory (Some 0) [0; 1; 2] [10; 13; 23]%Z.
Proof.
  exists 0, (MkList (Some 0) (Some 2)).
  split; [reflexivity|]. split; [reflexivity|]. split; [|split; [|reflexivity]].
  - repeat (econstructor; [reflexivity|]). constructor.
  - apply (bool_decide_unpack _). reflexivity.
Qed.

(** The generics [main]: three pushes, then [AllElements]. *)
Lemma elements_pushes_ok {T} (m0 : memory T) (vs : list T) (k : nat) :
  elements_pushes vs (S (length vs) + k) m0 = Done vs.
Proof.
  unfold elements_pushes, bind, new_List, ret.
  assert (Hz : is_list (Memory (lists m0 ++ [MkList None None]) (cells m0))
                       (Some (length (lists m0))) [] []).
  { apply zero_is_list. simpl.
    rewrite lookup_app_r by lia. rewrite Nat.sub_diag. reflexivity. }
  destruct (Pushes_is_list vs _ _ _ _ Hz) as (m & HP & Hm & _).
  rewrite HP. simpl in Hm.
  eapply AllElements_is_list; [exact Hm | lia].
Qed.

Example main_generics :
  elements_pushes [10; 13; 23]%Z 4 (Memory [] []) = Done [10; 13; 23]%Z.
Proof. reflexivity. Qed.

(** * Specification theorems *)

(** ** Chain and Chain Walker *)

Lemma new_List_is_list {T} (m0 : memory T) :
  is_list (Memory (lists m0 ++ [MkList None None]) (cells m0))
          (Some (length (lists m0))) [] [].
Proof.
  apply zero_is_list. simpl.
  rewrite lookup_app_r by lia. rewrite Nat.sub_diag. reflexivity.
Qed.

(** C1. Values pushed into an initially empty [List] and then collected
    from [All] (a consumer that appends each value and always answers
    [true]) come back as the ordered list of the pushed values, whatever
    the memory the [List] was allocated in and for every step budget that
    covers the walk; pushing 10, 13, 23 gives [10; 13; 23], and an empty
    [List] gives the empty list. *)
Theorem C1_collect_pushes {T} (m0 : memory T) (vs : list T) (k : nat) :
  collect_pushes vs (S (length vs) + k) m0 = Done vs
  /\ collect_pushes [10; 13; 23]%Z 4 (Memory [] []) = Done [10; 13; 23]%Z
  /\ collect_pushes (@nil Z) 1 (Memory [] []) = Done [].
Proof.
  split; [|split; reflexivity].
  unfold collect_pushes, bind, new_List, All, ret.
  destruct (Pushes_is_list vs _ _ _ _ (new_List_is_list m0))
    as (m & HP & Hm & _).
  rewrite HP. simpl in Hm.
  eapply Collect_All_is_list; [exact Hm | lia].
Qed.

(** C5. [Push] is a pure append. On a well-formed [List] holding [vs],
    [Push v] does not panic; afterwards both [AllElements] and the
    collected [All] give [vs ++ [v]]: one element more, the nodes that were
    there keep their addresses, values and order, and every walk, whatever
    its consumer, hands out the earliest-pushed value first. *)
Theorem C5_Push_appends {T} (m : memory T) (lst : ptr) (addrs : list nat)
    (vs : list T) (v : T) :
  is_list m lst addrs vs ->
  exists m', Push lst v m = Some (tt, m') /\
    (forall fuel, length vs < fuel ->
       AllElements fuel lst m = Done vs /\
       Collect (All_func snd lst) fuel m = Done vs) /\
    (forall fuel, S (length vs) < fuel ->
       AllElements fuel lst m' = Done (vs ++ [v]) /\
       Collect (All_func snd lst) fuel m' = Done (vs ++ [v])) /\
    length (vs ++ [v]) = S (length vs) /\
    is_list m' lst (addrs ++ [length (cells m)]) (vs ++ [v]) /\
    (forall i x, vs !! i = Some x -> (vs ++ [v]) !! i = Some x) /\
    (forall W (mem : W -> memory T) (yield : yield_func T W) fuel w x r,
       mem w = m' ->
       calls (All_func mem lst yield fuel w) !! 0 = Some (x, r) ->
       (vs ++ [v]) !! 0 = Some x).
Proof.
  intros Hl.
  destruct (Push_is_list m lst addrs vs v Hl) as (m' & HP & Hl' & _).
  exists m'. split; [exact HP|].
  split; [|split; [|split; [|split; [|split]]]].
  - intros fuel Hf. split.
    + eapply AllElements_is_list; eauto.
    + eapply Collect_All_is_list; eauto.
  - intros fuel Hf.
    assert (length (vs ++ [v]) < fuel) by (rewrite length_app; simpl; lia).
    split.
    + eapply AllElements_is_list; eauto.
    + eapply Collect_All_is_list; eauto.
  - rewrite length_app. simpl. lia.
  - exact Hl'.
  - intros i x Hi. apply lookup_app_l_Some. exact Hi.
  - intros W mem yield fuel w x r Hw Hc. subst m'.
    eapply All_func_first; eauto.
Qed.

(** C4. The [tail] invariant: it holds of a fresh zero-valued [List];
    [Push] on a [List] that satisfies it does not panic and gives a [List]
    that satisfies it; hence it holds after any run of pushes on a fresh
    [List]. *)
Theorem C4_tail_invariant {T} (m0 : memory T) :
  (exists lst m, new_List m0 = Some (lst, m) /\ tail_invariant m lst)
  /\ (forall (m : memory T) lst v, tail_invariant m lst ->
        exists m', Push lst v m = Some (tt, m') /\ tail_invariant m' lst)
  /\ (forall vs : list T, exists lst m,
        (let! lst := new_List in do! Pushes lst vs in ret lst) m0 = Some (lst, m)
        /\ tail_invariant m lst).
Proof.
  split; [|split].
  - eexists _, _. split; [reflexivity|].
    eapply is_list_tail_invariant, new_List_is_list.
  - intros m lst v Hinv.
    destruct (tail_invariant_is_list _ _ Hinv) as (addrs & vs & Hl).
    destruct (Push_is_list m lst addrs vs v Hl) as (m' & HP & Hl' & _).
    exists m'. split; [exact HP|]. eapply is_list_tail_invariant; eauto.
  - intros vs. unfold bind, new_List, ret.
    destruct (Pushes_is_list vs _ _ _ _ (new_List_is_list m0))
      as (m & HP & Hm & _).
    rewrite HP. eexists _, _. split; [reflexivity|].
    eapply is_list_tail_invariant; eauto.
Qed.

(** C10. The zero value is a valid empty [List]: allocated by
    [List[T]{}] alone it is well formed with no element, [AllElements] and
    the collected [All] give the empty list, [lst.tail] reads [nil], and
    the first [Push] allocates one cell, with [next] [nil], to which both
    [head] and [tail] point. *)
Theorem C10_zero_value {T} (m : memory T) (a : nat) (v : T) :
  lists m !! a = Some (MkList None None) ->
  is_list m (Some a) [] [] /\
  tail_invariant m (Some a) /\
  AllElements 1 (Some a) m = Done [] /\
  Collect (All_func snd (Some a)) 1 m = Done [] /\
  load_tail (Some a) m = Some (None, m) /\
  Push (Some a) v m =
    Some (tt, Memory (<[a := MkList (Some (length (cells m))) (Some (length (cells m)))]>
                        (lists m))
                     (cells m ++ [Element None v])) /\
  (cells m ++ [Element None v]) !! length (cells m) = Some (Element None v) /\
  new_List m = Some (Some (length (lists m)),
                     Memory (lists m ++ [MkList None None]) (cells m)).
Proof.
  intros Hl. pose proof (zero_is_list m a Hl) as Hz.
  split; [exact Hz|]. split; [eapply is_list_tail_invariant; eauto|].
  split; [eapply AllElements_is_list; eauto|].
  split; [eapply Collect_All_is_list; eauto|].
  split; [unfold load_tail, load_List, bind, ret; rewrite Hl; reflexivity|].
  split; [apply (Push_nil_tail m a _ v Hl); reflexivity|].
  split; [|reflexivity].
  rewrite lookup_app_r by lia. rewrite Nat.sub_diag. reflexivity.
Qed.

Lemma C10_zero_value_witness :
  let m : memory Z := Memory [MkList None None] [] in
  lists m !! 0 = Some (MkList None None) /\
  Push (Some 0) 7%Z m
  = Some (tt, Memory [MkList (Some 0) (Some 0)] [Element None 7%Z]).
Proof.
  split; [reflexivity|].
  exact (proj1 (proj2 (proj2 (proj2 (proj2 (proj2
    (C10_zero_value (Memory [MkList None None] []) 0 7%Z eq_refl))))))).
Defined.

(** C9. [All] gives a live view: the closure obtained from [lst.All()]
    reads [lst.head] only when it is run, so values pushed between the call
    of [All] and the run are handed out too. *)
Theorem C9_All_live {T} (m : memory T) (lst : ptr) (addrs : list nat)
    (vs ws : list T) :
  is_list m lst addrs vs ->
  exists sq m',
    All snd lst m = Some (sq, m) /\
    Pushes lst ws m = Some (tt, m') /\
    forall fuel, length (vs ++ ws) < fuel ->
      Collect sq fuel m' = Done (vs ++ ws) /\
      Collect sq fuel m = Done vs.
Proof.
  intros Hl.
  destruct (Pushes_is_list ws m lst addrs vs Hl) as (m' & HP & Hl' & _).
  exists (All_func snd lst), m'. split; [reflexivity|]. split; [exact HP|].
  intros fuel Hf. split.
  - eapply Collect_All_is_list; eauto.
  - eapply Collect_All_is_list; eauto. rewrite length_app in Hf. lia.
Qed.

Lemma C5_Push_appends_witness :
  is_list main_memory (Some 0) [0; 1; 2] [10; 13; 23]%Z /\
  exists m', Push (Some 0) 42%Z main_memory = Some (tt, m') /\
    AllElements 5 (Some 0) m' = Done [10; 13; 23; 42]%Z /\
    Collect (All_func snd (Some 0)) 5 m' = Done [10; 13; 23; 42]%Z.
Proof.
  split; [exact main_memory_is_list|].
  destruct (C5_Push_appends main_memory (Some 0) [0; 1; 2] [10; 13; 23]%Z 42%Z
              main_memory_is_list) as (m' & HP & _ & Hafter & _).
  exists m'. split; [exact HP|]. apply Hafter. simpl. lia.
Defined.

Lemma C4_tail_invariant_witness :
  tail_invariant main_memory (Some 0) /\
  exists m', Push (Some 0) 42%Z main_memory = Some (tt, m') /\
             tail_invariant m' (Some 0).
Proof.
  assert (H : tail_invariant main_memory (Some 0))
    by exact (is_list_tail_invariant _ _ _ _ main_memory_is_list).
  split; [exact H|].
  exact (proj1 (proj2 (C4_tail_invariant (Memory [] []))) main_memory (Some 0) 42%Z H).
Defined.

Lemma C9_All_live_witness :
  is_list main_memory (Some 0) [0; 1; 2] [10; 13; 23]%Z /\
  exists sq m',
    All snd (Some 0) main_memory = Some (sq, main_memory) /\
    Pushes (Some 0) [42; 7]%Z main_memory = Some (tt, m') /\
    Collect sq 6 m' = Done [10; 13; 23; 42; 7]%Z /\
    Collect sq 6 main_memory = Done [10; 13; 23]%Z.
Proof.
  split; [exact main_memory_is_list|].
  destruct (C9_All_live main_memory (Some 0) [0; 1; 2] [10; 13; 23]%Z [42; 7]%Z
              main_memory_is_list) as (sq & m' & HA & HP & HC).
  exists sq, m'. split; [exact HA|]. split; [exact HP|].
  apply HC. simpl. lia.
Defined.

(** C6 as stated fails on the code: a consumer may itself write the
    [List] it is walking. After one run of [All] under a consumer that
    pushes the value it receives and cancels, the [List] holds one element
    more. *)
Lemma C6_counterexample :
  let o := All_func id (Some 0) (push_once (Some 0)) 5 main_memory in
  stat o = Returned /\
  calls o = [(10, false)]%Z /\
  AllElements 5 (Some 0) main_memory = Done [10; 13; 23]%Z /\
  AllElements 5 (Some 0) (world o) = Done [10; 13; 23; 10]%Z /\
  world o <> main_memory.
Proof.
  simpl. repeat (split; [reflexivity|]). discriminate.
Qed.

(** C6, amended. The walk reads only, and it can be repeated. Whatever
    the consumer, the state after [All]'s run is the state the consumer's
    own calls have produced, so a consumer that leaves the memory alone
    finds the [List] ([head], [tail], every cell) as it was; and two runs
    on the same unmodified [List], under such consumers, both return and
    hand out the same values in the same order: initial segments of the
    [List]'s elements, identical when as many calls were made, the whole
    of them unless cancelled. *)
Theorem C6_walk_reads_only {T W} (mem : W -> memory T) (lst : ptr)
    (yield1 yield2 : yield_func T W) (w1 w2 : W) (fuel1 fuel2 : nat)
    (addrs : list nat) (vs : list T) :
  let o1 := All_func mem lst yield1 fuel1 w1 in
  let o2 := All_func mem lst yield2 fuel2 w2 in
  feed yield1 (map fst (calls o1)) w1 = (map snd (calls o1), world o1) /\
  (preserves_mem mem yield1 -> mem (world o1) = mem w1) /\
  (preserves_mem mem yield1 -> preserves_mem mem yield2 ->
   is_list (mem w1) lst addrs vs -> mem w2 = mem w1 ->
   length vs < fuel1 -> length vs < fuel2 ->
   stat o1 = Returned /\ stat o2 = Returned /\
   map fst (calls o1) = take (length (calls o1)) vs /\
   map fst (calls o2) = take (length (calls o2)) vs /\
   (forall i x1 r1 x2 r2,
      calls o1 !! i = Some (x1, r1) -> calls o2 !! i = Some (x2, r2) -> x1 = x2) /\
   (length (calls o1) = length (calls o2) ->
    map fst (calls o1) = map fst (calls o2)) /\
   ((forall c, c ∈ calls o1 -> snd c = true) ->
    (forall c, c ∈ calls o2 -> snd c = true) ->
    map fst (calls o1) = vs /\ map fst (calls o2) = vs)).
Proof.
  intros o1 o2.
  split; [apply conforms_feed, All_func_conforms|].
  split; [intros Hp; eapply conforms_preserves; eauto; apply All_func_conforms|].
  intros Hp1 Hp2 Hl Hm Hf1 Hf2.
  assert (E1 : o1 = drive yield1 vs w1) by (eapply All_func_drive; eauto).
  assert (E2 : o2 = drive yield2 vs w2).
  { eapply All_func_drive; eauto. rewrite Hm. exact Hl. }
  assert (P1 : map fst (calls o1) = take (length (calls o1)) vs)
    by (rewrite E1; apply drive_prefix).
  assert (P2 : map fst (calls o2) = take (length (calls o2)) vs)
    by (rewrite E2; apply drive_prefix).
  split; [rewrite E1; apply drive_returned|].
  split; [rewrite E2; apply drive_returned|].
  split; [exact P1|]. split; [exact P2|]. split; [|split].
  - intros i x1 r1 x2 r2 H1 H2.
    assert (L1 : map fst (calls o1) !! i = Some x1)
      by (rewrite list_lookup_fmap, H1; reflexivity).
    assert (L2 : map fst (calls o2) !! i = Some x2)
      by (rewrite list_lookup_fmap, H2; reflexivity).
    rewrite P1 in L1. rewrite P2 in L2.
    apply lookup_take_Some in L1 as [L1 _].
    apply lookup_take_Some in L2 as [L2 _]. congruence.
  - intros Hlen. rewrite P1, P2, Hlen. reflexivity.
  - intros A1 A2. split.
    + rewrite E1 in *. apply drive_all. exact A1.
    + rewrite E2 in *. apply drive_all. exact A2.
Qed.

Lemma C6_walk_reads_only_witness :
  let o1 := All_func id (Some 0) (fun (v : Z) m => ((v <? 13)%Z, m)) 4 main_memory in
  let o2 := All_func id (Some 0) (fun (v : Z) m => (true, m)) 5 main_memory in
  world o1 = main_memory /\ world o2 = main_memory /\
  map fst (calls o1) = [10; 13]%Z /\ map fst (calls o2) = [10; 13; 23]%Z /\
  stat o1 = Returned /\ stat o2 = Returned.
Proof.
  pose proof (C6_walk_reads_only id (Some 0)
                (fun (v : Z) m => ((v <? 13)%Z, m)) (fun (v : Z) m => (true, m))
                main_memory main_memory 4 5 [0; 1; 2] [10; 13; 23]%Z) as H.
  simpl in H. destruct H as (_ & Hw & Hrep).
  specialize (Hw (fun _ _ => eq_refl)).
  destruct (Hrep (fun _ _ => eq_refl) (fun _ _ => eq_refl) main_memory_is_list
              eq_refl ltac:(simpl; lia) ltac:(simpl; lia))
    as (S1 & S2 & P1 & P2 & _).
  repeat split; assumption || reflexivity.
Defined.

(** ** Cancellation and the generator *)

(** C3. Cancellation is exact, for [All] and for [genFib], whatever the
    consumer and the memory. If the [k]-th call of the consumer is answered
    [false], then exactly [k] calls were made, all earlier ones answered
    [true], the producer has returned, and a larger step budget adds
    nothing. Read from the consumer's side: a consumer that answers [true]
    to the first [k - 1] values and [false] to the [k]-th gets exactly
    these [k] calls, and the producer returns, for every budget of at least
    [k] steps. *)
Theorem C3_cancellation_exact {T W} (mem : W -> memory T) (lst : ptr) (p : arch)
    (yieldT : yield_func T W) (yieldZ : yield_func Z W) (fuel : nat) (w : W)
    (k : nat) :
  1 <= k ->
  let oT := All_func mem lst yieldT fuel w in
  let oZ := genFib p yieldZ fuel w in
  (forall v, calls oT !! (k - 1) = Some (v, false) ->
     length (calls oT) = k /\ stat oT = Returned /\
     (forall j x r, j < k - 1 -> calls oT !! j = Some (x, r) -> r = true) /\
     (forall fuel', fuel <= fuel' -> All_func mem lst yieldT fuel' w = oT))
  /\
  (forall v, calls oZ !! (k - 1) = Some (v, false) ->
     length (calls oZ) = k /\ stat oZ = Returned /\
     (forall j x r, j < k - 1 -> calls oZ !! j = Some (x, r) -> r = true) /\
     (forall fuel', fuel <= fuel' -> genFib p yieldZ fuel' w = oZ))
  /\
  (forall addrs vs x,
     preserves_mem mem yieldT -> is_list (mem w) lst addrs vs ->
     vs !! (k - 1) = Some x ->
     fst (feed yieldT (take (k - 1) vs) w) = repeat true (k - 1) ->
     fst (yieldT x (snd (feed yieldT (take (k - 1) vs) w))) = false ->
     k <= fuel ->
     calls oT = map (fun v => (v, true)) (take (k - 1) vs) ++ [(x, false)] /\
     length (calls oT) = k /\ stat oT = Returned)
  /\
  (fst (feed yieldZ (fib_values p (k - 1)) w) = repeat true (k - 1) ->
   fst (yieldZ (wrap p (fib k)) (snd (feed yieldZ (fib_values p (k - 1)) w))) = false ->
   k <= fuel ->
   calls oZ = map (fun v => (v, true)) (fib_values p (k - 1)) ++ [(wrap p (fib k), false)] /\
   length (calls oZ) = k /\ stat oZ = Returned).
Proof.
  intros Hk oT oZ.
  assert (CT : conforms yieldT w oT) by apply All_func_conforms.
  assert (CZ : conforms yieldZ w oZ) by apply genFib_loop_conforms.
  split; [|split; [|split]].
  - intros v Hv.
    destruct (conforms_cancel_last _ _ _ _ _ CT Hv) as [Hlen Hst].
    split; [lia|]. split; [exact Hst|]. split.
    + intros j x r Hj Hc. apply (conforms_earlier_true _ _ _ j x r CT Hc). lia.
    + intros fuel' Hle. apply All_func_stable; [|exact Hle].
      fold oT. rewrite Hst. discriminate.
  - intros v Hv.
    destruct (conforms_cancel_last _ _ _ _ _ CZ Hv) as [Hlen Hst].
    split; [lia|]. split; [exact Hst|]. split.
    + intros j x r Hj Hc. apply (conforms_earlier_true _ _ _ j x r CZ Hc). lia.
    + intros fuel' Hle. apply genFib_loop_stable; [|exact Hle].
      fold (genFib p yieldZ fuel w). fold oZ. rewrite Hst. discriminate.
  - intros addrs vs x Hp Hl Hx Hfeed Hno Hf.
    assert (E : oT = Outcome (map (fun v => (v, true)) (take (k - 1) vs) ++ [(x, false)])
                       (snd (yieldT x (snd (feed yieldT (take (k - 1) vs) w)))) Returned).
    { eapply All_func_cancel; eauto. lia. }
    rewrite E. simpl. split; [reflexivity|]. split; [|reflexivity].
    rewrite length_app, length_map, length_take. simpl.
    apply lookup_lt_Some in Hx. lia.
  - intros Hfeed Hno Hf.
    assert (E : oZ = Outcome (map (fun v => (v, true)) (fib_values p (k - 1))
                              ++ [(wrap p (fib (S (k - 1))), false)])
                       (snd (yieldZ (wrap p (fib (S (k - 1))))
                               (snd (feed yieldZ (fib_values p (k - 1)) w)))) Returned).
    { apply genFib_cancel; auto; [|lia].
      replace (S (k - 1)) with k by lia. exact Hno. }
    replace (S (k - 1)) with k in E by lia. rewrite E. cbn [calls stat].
    split; [reflexivity|]. split; [|reflexivity].
    rewrite length_app, length_map, fib_values_length. simpl. lia.
Qed.

Lemma C3_cancellation_exact_witness :
  let oT := All_func snd (Some 0) (beside (stop_at 2)) 5 (0, main_memory) in
  let oZ := genFib Arch64 (beside (stop_at 2)) 5 (0, main_memory) in
  calls oT = [(10, true); (13, false)]%Z /\ length (calls oT) = 2 /\
  stat oT = Returned /\
  calls oZ = [(1, true); (1, false)]%Z /\ length (calls oZ) = 2 /\
  stat oZ = Returned.
Proof.
  intros oT oZ.
  destruct (C3_cancellation_exact snd (Some 0) Arch64
              (beside (stop_at 2)) (beside (stop_at 2)) 5
              (0, main_memory) 2 ltac:(lia)) as (HT & HZ & HTc & HZc).
  destruct (HT 13%Z eq_refl) as (LT & ST & _).
  destruct (HZ 1%Z eq_refl) as (LZ & SZ & _).
  destruct (HTc [0; 1; 2] [10; 13; 23]%Z 13%Z (fun _ _ => eq_refl)
              main_memory_is_list eq_refl eq_refl eq_refl ltac:(lia))
    as (CT & _).
  destruct (HZc eq_refl eq_refl ltac:(lia)) as (CZ & _).
  repeat split; assumption.
Defined.

(** C7. [genFib] never stops on its own. As long as the consumer has
    answered [true] to the first [n] values, the [(n+1)]-th call is made;
    the generator never panics; if it has returned, the last call was
    answered [false]; and under a consumer that always answers [true] it is
    still running at the end of every step budget, one call per step. *)
Theorem C7_genFib_never_stops {W} (p : arch) (yield : yield_func Z W) (w : W)
    (n fuel : nat) :
  fst (feed yield (fib_values p n) w) = repeat true n ->
  n < fuel ->
  (exists r, calls (genFib p yield fuel w) !! n = Some (wrap p (fib (S n)), r)) /\
  S n <= length (calls (genFib p yield fuel w)) /\
  (forall fuel', stat (genFib p yield fuel' w) <> Panicked) /\
  (forall fuel', stat (genFib p yield fuel' w) = Returned ->
     exists v, last (calls (genFib p yield fuel' w)) = Some (v, false)) /\
  ((forall v w', fst (yield v w') = true) ->
   forall fuel', stat (genFib p yield fuel' w) = Running /\
                 length (calls (genFib p yield fuel' w)) = fuel').
Proof.
  intros Hfeed Hf.
  destruct (genFib_reach p yield n fuel w Hfeed Hf) as (r & Hr & _).
  split; [eauto|]. split; [apply lookup_lt_Some in Hr; lia|].
  split; [|split].
  - intros fuel'. unfold genFib.
    destruct (genFib_loop_status p yield fuel' 1%Z 1%Z w) as [(Hs & _)|(Hs & _)];
      rewrite Hs; discriminate.
  - intros fuel' Hret. unfold genFib in *.
    destruct (genFib_loop_status p yield fuel' 1%Z 1%Z w) as [(Hs & _)|(_ & Hv)];
      [congruence | exact Hv].
  - intros Hall fuel'. apply genFib_loop_forever. exact Hall.
Qed.

Lemma C7_genFib_never_stops_witness :
  fst (feed (stop_at 5) (fib_values Arch64 3) 0) = repeat true 3 /\
  3 < 10 /\
  exists r, calls (genFib Arch64 (stop_at 5) 10 0) !! 3 = Some (wrap Arch64 (fib 4), r).
Proof.
  split; [reflexivity|]. split; [lia|].
  exact (proj1 (C7_genFib_never_stops Arch64 (stop_at 5) 0 3 10 eq_refl ltac:(lia))).
Defined.

(** C8. [genFib] computes in machine [int]s. Whatever the consumer, the
    value given to the [(n+1)]-th call is the Fibonacci number [F(n+1)]
    wrapped to the width of [int]: congruent to it modulo [2^w], within
    the range of [int], equal to it while it fits, and different from it
    as soon as it exceeds the largest [int]. *)
Theorem C8_genFib_wraps {W} (p : arch) (yield : yield_func Z W) (fuel : nat)
    (w : W) (n : nat) (v : Z) (r : bool) :
  calls (genFib p yield fuel w) !! n = Some (v, r) ->
  (v = wrap p (fib (S n)) /\
   v mod 2 ^ int_size p = fib (S n) mod 2 ^ int_size p /\
   - 2 ^ (int_size p - 1) <= v <= max_int p /\
   (fib (S n) <= max_int p -> v = fib (S n)) /\
   (max_int p < fib (S n) -> v <> fib (S n)))%Z.
Proof.
  intros H. apply genFib_value in H. subst v.
  split; [reflexivity|]. split; [apply wrap_mod|].
  pose proof (wrap_range p (fib (S n))) as Hr.
  split; [exact Hr|]. split.
  - intros Hfit. apply wrap_small. destruct (int_size_pow p).
    pose proof (fib_nonneg (S n)). lia.
  - intros Hbig. lia.
Qed.

Lemma C8_genFib_wraps_witness :
  calls (genFib Arch64 (stop_at 93) 93 0) !! 92
    = Some ((-6246583658587674878)%Z, false) /\
  ((-6246583658587674878) mod 2 ^ 64 = fib 93 mod 2 ^ 64)%Z.
Proof.
  assert (H : calls (genFib Arch64 (stop_at 93) 93 0) !! 92
              = Some ((-6246583658587674878)%Z, false))
    by (vm_compute; reflexivity).
  split; [exact H|].
  exact (proj1 (proj2 (C8_genFib_wraps Arch64 (stop_at 93) 93 0 92 _ _ H))).
Defined.

(** C2 as stated fails on the code: on the 64-bit platform the 93rd value
    produced is negative, while [F(93)] is not. *)
Lemma C2_counterexample :
  map fst (calls (genFib Arch64 (stop_at 93) 93 0)) !! 92
    = Some (-6246583658587674878)%Z /\
  fib 93 = 12200160415121876738%Z /\
  map fst (calls (genFib Arch64 (stop_at 93) 93 0)) !! 92 <> Some (fib 93).
Proof.
  assert (H : map fst (calls (genFib Arch64 (stop_at 93) 93 0)) !! 92
              = Some (-6246583658587674878)%Z) by (vm_compute; reflexivity).
  split; [exact H|]. split; [exact fib_93|].
  rewrite H, fib_93. discriminate.
Qed.

(** C2, amended. For every [n >= 1] whose Fibonacci number fits in an
    [int] (up to [n = 92] at 64 bits, [n = 46] at 32 bits), the [n]-th
    value produced by [genFib], under a consumer that answers [true] until
    its [n]-th call, is [F(n)], with [F(1) = F(2) = 1]; the first ten
    values are 1, 1, 2, 3, 5, 8, 13, 21, 34, 55. *)
Theorem C2_genFib_fib {W} (p : arch) (yield : yield_func Z W) (w : W)
    (n fuel : nat) :
  1 <= n ->
  (fib n <= max_int p)%Z ->
  fst (feed yield (fib_values p (n - 1)) w) = repeat true (n - 1) ->
  n <= fuel ->
  (exists r, calls (genFib p yield fuel w) !! (n - 1) = Some (fib n, r)) /\
  map fst (calls (genFib p (stop_at 10) 10 0)) = [1; 1; 2; 3; 5; 8; 13; 21; 34; 55]%Z /\
  (forall j, j <= 92 -> (fib j <= max_int Arch64)%Z) /\
  (forall j, j <= 46 -> (fib j <= max_int Arch32)%Z).
Proof.
  intros Hn Hfit Hfeed Hf.
  split; [|split; [destruct p; vm_compute; reflexivity|split]].
  - destruct (genFib_reach p yield (n - 1) fuel w Hfeed ltac:(lia)) as (r & Hr & _).
    exists r. rewrite Hr. replace (S (n - 1)) with n by lia.
    rewrite wrap_small; [reflexivity|].
    destruct (int_size_pow p). pose proof (fib_nonneg n). lia.
  - intros j Hj. pose proof (fib_mono j 92 Hj) as Hm. rewrite fib_92 in Hm.
    unfold max_int. simpl. lia.
  - intros j Hj. pose proof (fib_mono j 46 Hj) as Hm. rewrite fib_46 in Hm.
    unfold max_int. simpl. lia.
Qed.

Lemma C2_genFib_fib_witness :
  1 <= 10 /\ (fib 10 <= max_int Arch64)%Z /\
  fst (feed (stop_at 10) (fib_values Arch64 9) 0) = repeat true 9 /\
  exists r, calls (genFib Arch64 (stop_at 10) 10 0) !! 9 = Some (fib 10, r).
Proof.
  assert (H1 : 1 <= 10) by lia.
  assert (H2 : (fib 10 <= max_int Arch64)%Z) by (vm_compute; discriminate).
  assert (H3 : fst (feed (stop_at 10) (fib_values Arch64 (10 - 1)) 0)
               = repeat true (10 - 1)) by reflexivity.
  split; [exact H1|]. split; [exact H2|]. split; [exact H3|].
  exact (proj1 (C2_genFib_fib Arch64 (stop_at 10) 0 10 10 H1 H2 H3 ltac:(lia))).
Defined.

(** [main]'s loop over [genFib] prints the values below 10 and stops at
    the first value that is not. *)
Example main_genFib arch_ :
  genFib arch_ print_below_10 7 []
  = Outcome [(1, true); (1, true); (2, true); (3, true); (5, true); (8, true);
             (13, false)]%Z [1; 1; 2; 3; 5; 8]%Z Returned.
Proof. destruct arch_; vm_compute; reflexivity. Qed.

(** A consumer that writes the [List] it walks is seen by the walk: the
    values it pushes are handed out in turn, and the walk goes on. *)
Example walk_push_back :
  let o := All_func id (Some 0) (push_back (Some 0)) 5 main_memory in
  map fst (calls o) = [10; 13; 23; 10; 13]%Z /\ stat o = Running /\
  AllElements 9 (Some 0) (world o) = Done [10; 13; 23; 10; 13; 23; 10; 13]%Z.
Proof. vm_compute. auto. Qed.

(** * Further properties of the code *)

(** ** [SlicesIndex] *)

Section SlicesIndexFacts.
Context {E : Type} `{EqDecision E}.
Local Open Scope Z_scope.





End SlicesIndexFacts.



(** ** Several [List]s in one memory *)

Section Independence.
Context {T : Type}.
Implicit Types (m : memory T) (reps : list (list nat * list T)).

(** What [Push] leaves alone: the other [List] structs, and every cell
    but the one [tail] points to. *)
Lemma Push_frame m i addrs vs v m' :
  is_list m (Some i) addrs vs ->
  Push (Some i) v m = Some (tt, m') ->
  (forall j, j <> i -> lists m' !! j = lists m !! j) /\
  (forall b, b < length (cells m) -> last addrs <> Some b ->
     cells m' !! b = cells m !! b).
Proof.
  intros (a & l & Ha & Hl & Hch & Hnd & Ht) HP. inversion Ha; subst a.
  destruct (last addrs) as [t|] eqn:Hlast.
  - destruct (chain_last _ _ _ _ _ Hch Hlast) as (vt & Hct & _).
    rewrite (Push_some_tail m i l t _ v Hl Ht Hct) in HP. inversion HP; subst m'.
    simpl. split.
    + intros j Hj. apply list_lookup_insert_ne. congruence.
    + intros b Hb Hne. rewrite list_lookup_insert_ne by congruence.
      apply lookup_app_l. exact Hb.
  - rewrite (Push_nil_tail m i l v Hl Ht) in HP. inversion HP; subst m'.
    simpl. split.
    + intros j Hj. apply list_lookup_insert_ne. congruence.
    + intros b Hb _. apply lookup_app_l. exact Hb.
Qed.

Lemma lists_wf_empty : lists_wf (Memory (T:=T) [] []) [].
Proof.
  split; [reflexivity|]. split.
  - intros i addrs vs Hi. discriminate.
  - intros i j ai vi aj vj _ Hi. discriminate.
Qed.

Lemma is_list_new_List m i addrs vs :
  is_list m (Some i) addrs vs ->
  is_list (Memory (lists m ++ [MkList None None]) (cells m)) (Some i) addrs vs.
Proof.
  intros (a & l & Ha & Hl & Hch & Hnd & Ht).
  exists a, l. split; [exact Ha|]. split; [|auto].
  simpl. apply lookup_app_l_Some. exact Hl.
Qed.

(** X3. [List]s built with [List[T]{}] and [Push] alone stay well formed
    and independent. A fresh [List] joins the others as an empty one; and
    [Push] on one [List] never panics, appends to that one, and leaves
    every other [List] with the nodes and the elements it had, as
    [AllElements] then shows. *)
Theorem X3_lists_independent m reps :
  lists_wf m reps ->
  (exists m', new_List m = Some (Some (length (lists m)), m') /\
              lists_wf m' (reps ++ [([], [])])) /\
  (forall i addrs vs v, reps !! i = Some (addrs, vs) ->
     exists m', Push (Some i) v m = Some (tt, m') /\
       lists_wf m' (<[i := (addrs ++ [length (cells m)], vs ++ [v])]> reps) /\
       forall j aj vj fuel, j <> i -> reps !! j = Some (aj, vj) ->
         length vj < fuel ->
         AllElements fuel (Some j) m = Done vj /\
         AllElements fuel (Some j) m' = Done vj).
Proof.
  intros (Hlen & Hwf & Hdis). split.
  - eexists. split; [reflexivity|]. split; [|split].
    + simpl. rewrite !length_app. simpl. lia.
    + intros i addrs vs Hi.
      destruct (decide (i < length reps)) as [Hlt|Hge].
      * rewrite lookup_app_l in Hi by exact Hlt.
        apply is_list_new_List, Hwf. exact Hi.
      * rewrite lookup_app_r in Hi by lia.
        destruct (i - length reps) as [|k] eqn:Hk; [|destruct k; discriminate].
        inversion Hi; subst. replace i with (length (lists m)) by lia.
        apply new_List_is_list.
    + intros i j ai vi aj vj Hij Hi Hj a Hai Haj.
      destruct (decide (i < length reps)) as [Hlti|Hgei];
        destruct (decide (j < length reps)) as [Hltj|Hgej].
      * rewrite lookup_app_l in Hi by exact Hlti.
        rewrite lookup_app_l in Hj by exact Hltj. eapply Hdis; eauto.
      * rewrite lookup_app_r in Hj by lia.
        destruct (j - length reps) as [|k]; [|destruct k; discriminate].
        inversion Hj; subst. inversion Haj.
      * rewrite lookup_app_r in Hi by lia.
        destruct (i - length reps) as [|k]; [|destruct k; discriminate].
        inversion Hi; subst. inversion Hai.
      * rewrite lookup_app_r in Hi by lia.
        destruct (i - length reps) as [|k]; [|destruct k; discriminate].
        inversion Hi; subst. inversion Hai.
  - intros i addrs vs v Hi.
    pose proof (Hwf i addrs vs Hi) as Hli.
    destruct (Push_is_list m (Some i) addrs vs v Hli) as (m' & HP & Hli' & Hll & Hlc).
    destruct (Push_frame m i addrs vs v m' Hli HP) as [Hfl Hfc].
    assert (Hother : forall j aj vj, j <> i -> reps !! j = Some (aj, vj) ->
              is_list m' (Some j) aj vj).
    { intros j aj vj Hji Hj.
      destruct (Hwf j aj vj Hj) as (a & l & Ha & Hl & Hch & Hnd & Ht).
      inversion Ha; subst a.
      exists j, l. split; [reflexivity|]. split; [rewrite Hfl; auto|].
      split; [|auto].
      eapply chain_agree; [exact Hch|]. intros b Hb. apply Hfc.
      - eapply chain_bound; eauto.
      - intros Hlast.
        apply (Hdis i j addrs vs aj vj ltac:(congruence) Hi Hj b); [|exact Hb].
        rewrite last_lookup in Hlast. eapply list_elem_of_lookup_2; eauto. }
    exists m'. split; [exact HP|]. split; [|].
    + split; [rewrite length_insert; lia|]. split.
      * intros j aj vj Hj. destruct (decide (j = i)) as [->|Hji].
        -- rewrite list_lookup_insert_eq in Hj by (eapply lookup_lt_Some; eauto).
           inversion Hj; subst. exact Hli'.
        -- rewrite list_lookup_insert_ne in Hj by congruence. eapply Hother; eauto.
      * intros j k aj vj ak vk Hjk Hj Hk a Haj Hak.
        assert (Hnew : forall j' aj' vj', j' <> i -> reps !! j' = Some (aj', vj') ->
                         length (cells m) ∉ aj').
        { intros j' aj' vj' _ Hj' Hin.
          destruct (Hwf j' aj' vj' Hj') as (a0 & l0 & _ & _ & Hch0 & _).
          pose proof (chain_bound _ _ _ _ _ Hch0 Hin). lia. }
        destruct (decide (j = i)) as [->|Hji]; destruct (decide (k = i)) as [->|Hki].
        -- congruence.
        -- rewrite list_lookup_insert_eq in Hj by (eapply lookup_lt_Some; eauto).
           rewrite list_lookup_insert_ne in Hk by congruence.
           inversion Hj; subst.
           apply elem_of_app in Haj as [Haj|Haj].
           ++ eapply (Hdis i k); eauto.
           ++ apply list_elem_of_singleton in Haj. subst a.
              eapply Hnew; eauto.
        -- rewrite list_lookup_insert_ne in Hj by congruence.
           rewrite list_lookup_insert_eq in Hk by (eapply lookup_lt_Some; eauto).
           inversion Hk; subst.
           apply elem_of_app in Hak as [Hak|Hak].
           ++ eapply (Hdis j i); eauto.
           ++ apply list_elem_of_singleton in Hak. subst a.
              eapply Hnew; eauto.
        -- rewrite list_lookup_insert_ne in Hj by congruence.
           rewrite list_lookup_insert_ne in Hk by congruence.
           eapply (Hdis j k); eauto.
    + intros j aj vj fuel Hji Hj Hf. split.
      * eapply AllElements_is_list; eauto.
      * eapply AllElements_is_list; eauto.
Qed.

End Independence.

Lemma X3_lists_independent_witness :
  lists_wf (Memory (T:=Z) [] []) [] /\
  exists m1 m2 m3,
    new_List (Memory (T:=Z) [] []) = Some (Some 0, m1) /\
    new_List m1 = Some (Some 1, m2) /\
    Push (Some 1) 5%Z m2 = Some (tt, m3) /\
    lists_wf m3 [([], []); ([0], [5%Z])] /\
    AllElements 1 (Some 0) m3 = Done [].
Proof.
  split; [exact lists_wf_empty|].
  destruct (X3_lists_independent (Memory (T:=Z) [] []) [] lists_wf_empty)
    as [(m1 & H1 & W1) _].
  destruct (X3_lists_independent m1 _ W1) as [(m2 & H2 & W2) _].
  destruct (X3_lists_independent m2 _ W2) as [_ HP].
  destruct (HP 1 [] [] 5%Z eq_refl) as (m3 & H3 & W3 & Hoth).
  exists m1, m2, m3.
  inversion H1; subst m1. simpl in H2. inversion H2; subst m2. simpl in *.
  split; [reflexivity|]. split; [reflexivity|]. split; [exact H3|].
  split; [exact W3|].
  exact (proj2 (Hoth 0 [] [] 1 ltac:(lia) eq_refl ltac:(simpl; lia))).
Defined.

(** X4. Method calls on a [nil] [*List]: [Push] and [AllElements] panic,
    whatever the memory; [All] does not, it returns the sequence, and the
    sequence panics when it is run, before any call to [yield], so that
    collecting it panics too. *)
Theorem X4_nil_receiver {T W} (mem : W -> memory T) (m : memory T) (v : T)
    (yield : yield_func T W) (fuel : nat) (w : W) :
  Push None v m = None /\
  AllElements fuel None m = Panic /\
  All mem None m = Some (All_func mem None, m) /\
  All_func mem None yield fuel w = Outcome [] w Panicked /\
  Collect (All_func snd None) fuel m = Panic.
Proof. repeat split. Qed.

(** ** A cancelled walk reads no further *)

Section LazyWalk.
Context {T W : Type} (mem : W -> memory T).
Implicit Types (yield : yield_func T W) (w : W).

Lemma All_loop_segment yield vs :
  preserves_mem mem yield ->
  forall p q x w fuel,
  segment (cells (mem w)) p (vs ++ [x]) q ->
  fst (feed yield vs w) = repeat true (length vs) ->
  fst (yield x (snd (feed yield vs w))) = false ->
  length vs < fuel ->
  All_loop mem fuel p yield w =
    Outcome (map (fun v => (v, true)) vs ++ [(x, false)])
            (snd (yield x (snd (feed yield vs w)))) Returned.
Proof.
  intros Hp. induction vs as [|v vs IH]; intros p q x w fuel Hseg Hfeed Hno Hf;
    (destruct fuel as [|fuel]; [simpl in Hf; lia|]);
    inversion Hseg as [|a nx v0 vs0 q0 Hc Hrest]; subst; simpl in *.
  - rewrite Hc. simpl.
    destruct (yield x w) as [[|] w1]; simpl in *; [discriminate | reflexivity].
  - rewrite Hc. simpl. pose proof (Hp v w) as Hm.
    destruct (yield v w) as [[|] w1]; simpl in *.
    + rewrite Hm, Hc. simpl.
      destruct (feed yield vs w1) as [bs w2] eqn:Hfd. simpl in *.
      rewrite (IH nx q x w1 fuel); auto.
      * rewrite Hfd. reflexivity.
      * rewrite Hm. exact Hrest.
      * rewrite Hfd. simpl. congruence.
      * rewrite Hfd. exact Hno.
      * lia.
    + destruct (feed yield vs w1) as [bs w2]. simpl in Hfeed. discriminate.
Qed.

(** X5. A cancelled walk reads no further than the node it stops at. If
    the first nodes from [head] hold [vs] and then [x], and the consumer
    (one that leaves the memory alone) answers [true] to [vs] and [false]
    to [x], then [All]'s sequence makes these calls and returns, whatever
    lies behind the node of [x]: a cycle or an invalid link there is never
    reached. *)
Theorem X5_cancelled_walk_is_lazy (i : nat) (l : List T) (vs : list T) (x : T)
    (q : ptr) (yield : yield_func T W) (w : W) (fuel : nat) :
  preserves_mem mem yield ->
  lists (mem w) !! i = Some l ->
  segment (cells (mem w)) (head l) (vs ++ [x]) q ->
  fst (feed yield vs w) = repeat true (length vs) ->
  fst (yield x (snd (feed yield vs w))) = false ->
  length vs < fuel ->
  All_func mem (Some i) yield fuel w =
    Outcome (map (fun v => (v, true)) vs ++ [(x, false)])
            (snd (yield x (snd (feed yield vs w)))) Returned.
Proof.
  intros Hp Hl Hseg Hfeed Hno Hf.
  unfold All_func, load_head, load_List, bind, ret. rewrite Hl.
  eapply All_loop_segment; eauto.
Qed.

End LazyWalk.

Lemma X5_cancelled_walk_is_lazy_witness :
  All_func snd (Some 0) (beside (stop_at 3)) 3 (0, cyclic_memory)
    = Outcome [(7, true); (7, true); (7, false)]%Z (3, cyclic_memory) Returned /\
  AllElements 1000 (Some 0) cyclic_memory = Timeout.
Proof.
  split; [|vm_compute; reflexivity].
  apply (X5_cancelled_walk_is_lazy snd 0 (MkList (Some 0) (Some 0))
           [7; 7]%Z 7%Z (Some 0) (beside (stop_at 3)) (0, cyclic_memory) 3).
  - intros v w. reflexivity.
  - reflexivity.
  - repeat (econstructor; [reflexivity|]). constructor.
  - reflexivity.
  - reflexivity.
  - simpl. lia.
Defined.

(** ** Recursion: [fact] and the closure [fib] *)

Section Recursion.
Local Open Scope Z_scope.

Lemma wrap_add_l p x y : wrap p (wrap p x + y) = wrap p (x + y).
Proof.
  apply wrap_eq_mod. rewrite <- Zplus_mod_idemp_l, wrap_mod, Zplus_mod_idemp_l.
  reflexivity.
Qed.

Lemma wrap_mul_r p x y : wrap p (x * wrap p y) = wrap p (x * y).
Proof.
  apply wrap_eq_mod. rewrite <- Zmult_mod_idemp_r, wrap_mod, Zmult_mod_idemp_r.
  reflexivity.
Qed.

Lemma wrap_0 p : wrap p 0 = 0.
Proof. destruct p; reflexivity. Qed.

Lemma wrap_min_pred p : wrap p (- 2 ^ (int_size p - 1) - 1) = max_int p.
Proof. destruct p; reflexivity. Qed.

Lemma factorial_pos n : 1 <= factorial n.
Proof.
  induction n as [|n IH]; [simpl; lia|].
  change (factorial (S n)) with (Z.of_nat (S n) * factorial n). nia.
Qed.

Lemma factorial_mono n k : (n <= k)%nat -> factorial n <= factorial k.
Proof.
  induction 1 as [|k _ IH]; [lia|].
  change (factorial (S k)) with (Z.of_nat (S k) * factorial k).
  pose proof (factorial_pos k). nia.
Qed.

Lemma fact_factorial p (n : nat) : forall depth,
  (n < depth)%nat -> Z.of_nat n <= max_int p ->
  fact p depth (Z.of_nat n) = Some (wrap p (factorial n)).
Proof.
  induction n as [|n IH]; intros depth Hd Hr;
    (destruct depth as [|depth]; [lia|]); cbn [fact].
  - simpl. rewrite wrap_1. reflexivity.
  - replace (Z.of_nat (S n) =? 0) with false by (symmetry; apply Z.eqb_neq; lia).
    replace (Z.of_nat (S n) - 1) with (Z.of_nat n) by lia.
    destruct (int_size_pow p) as [HM HH].
    rewrite (wrap_small p (Z.of_nat n)) by (unfold max_int in *; lia).
    rewrite IH by lia. rewrite wrap_mul_r. reflexivity.
Qed.

(** X6. For [n >= 0], [fact(n)] returns, after [n] nested calls, [n!]
    reduced to an [int]; it is [n!] itself as long as that fits, which is
    up to [n = 20] at 64 bits and [n = 12] at 32 bits. *)
Theorem X6_fact_factorial (p : arch) (n depth : nat) :
  (n < depth)%nat -> Z.of_nat n <= max_int p ->
  fact p depth (Z.of_nat n) = Some (wrap p (factorial n)) /\
  (factorial n <= max_int p -> fact p depth (Z.of_nat n) = Some (factorial n)) /\
  ((n <= 20)%nat -> factorial n <= max_int Arch64) /\
  ((n <= 12)%nat -> factorial n <= max_int Arch32) /\
  fact p 0 (Z.of_nat n) = None.
Proof.
  intros Hd Hr. pose proof (fact_factorial p n depth Hd Hr) as H.
  split; [exact H|]. split; [|split; [|split; [|reflexivity]]].
  - intros Hfit. rewrite H. rewrite wrap_small; [reflexivity|].
    destruct (int_size_pow p). pose proof (factorial_pos n). lia.
  - intros Hn. pose proof (factorial_mono n 20 Hn) as Hm.
    assert (factorial 20 <= max_int Arch64) by (vm_compute; discriminate). lia.
  - intros Hn. pose proof (factorial_mono n 12 Hn) as Hm.
    assert (factorial 12 <= max_int Arch32) by (vm_compute; discriminate). lia.
Qed.

Lemma factorial_divide (k n m : nat) :
  (k <= n)%nat -> factorial k mod 2 ^ Z.of_nat m = 0 ->
  factorial n mod 2 ^ Z.of_nat m = 0.
Proof.
  intros Hle Hk. induction Hle as [|n _ IH]; [exact Hk|].
  change (factorial (S n)) with (Z.of_nat (S n) * factorial n).
  rewrite <- Zmult_mod_idemp_r, IH, Z.mul_0_r. apply Z.mod_0_l.
  apply Z.pow_nonzero; lia.
Qed.

(** X7. From some point on every factorial is a multiple of [2^w], and
    [fact] returns [0]: for every [n >= 66] at 64 bits, and every
    [n >= 34] at 32 bits. *)
Theorem X7_fact_zero (p : arch) (n depth : nat) :
  (n < depth)%nat -> Z.of_nat n <= max_int p ->
  (match p with Arch64 => 66 | Arch32 => 34 end <= n)%nat ->
  fact p depth (Z.of_nat n) = Some 0.
Proof.
  intros Hd Hr Hbig. rewrite fact_factorial by assumption. f_equal.
  rewrite <- (wrap_0 p). apply wrap_eq_mod. rewrite Z.mod_0_l by (destruct p; simpl; lia).
  destruct p.
  - apply (factorial_divide 34 n 32 Hbig). vm_compute. reflexivity.
  - apply (factorial_divide 66 n 64 Hbig). vm_compute. reflexivity.
Qed.

Lemma fact_no_return p : forall depth n,
  Z.of_nat depth <= 2 ^ (int_size p - 1) ->
  - 2 ^ (int_size p - 1) <= n <= max_int p ->
  n < 0 \/ Z.of_nat depth <= n ->
  fact p depth n = None.
Proof.
  induction depth as [|depth IH]; intros n Hd Hr Hn; [reflexivity|].
  cbn [fact]. destruct (int_size_pow p) as [HM HH].
  replace (n =? 0) with false by (symmetry; apply Z.eqb_neq; lia).
  destruct (decide (n = - 2 ^ (int_size p - 1))) as [->|Hmin].
  - rewrite wrap_min_pred. rewrite IH; [reflexivity| | |]; unfold max_int; lia.
  - rewrite (wrap_small p (n - 1)) by (unfold max_int in *; lia).
    rewrite IH; [reflexivity| | |]; unfold max_int in *; lia.
Qed.

(** X8. On a negative argument [fact] has no base case to reach: no
    call returns within [2^(w-1)] nested calls, the decrement having to
    wrap around the whole range of [int] first. *)
Theorem X8_fact_negative (p : arch) (depth : nat) (n : Z) :
  - 2 ^ (int_size p - 1) <= n < 0 ->
  Z.of_nat depth <= 2 ^ (int_size p - 1) ->
  fact p depth n = None.
Proof.
  intros Hn Hd. apply fact_no_return; [exact Hd| |lia].
  unfold max_int. destruct (int_size_pow p). lia.
Qed.

Lemma main_fib_fib p (n : nat) :
  (forall depth, (n < depth)%nat -> Z.of_nat n <= max_int p ->
     main_fib p depth (Z.of_nat n) = Some (wrap p (fib n))) /\
  (forall depth, (S n < depth)%nat -> Z.of_nat (S n) <= max_int p ->
     main_fib p depth (Z.of_nat (S n)) = Some (wrap p (fib (S n)))).
Proof.
  destruct (int_size_pow p) as [HM HH].
  induction n as [|n [IH1 IH2]].
  - split; intros depth Hd Hr; (destruct depth as [|depth]; [lia|]); cbn [main_fib].
    + simpl. rewrite wrap_0. reflexivity.
    + simpl. rewrite wrap_1. reflexivity.
  - split; [exact IH2|]. intros depth Hd Hr.
    destruct depth as [|depth]; [lia|]. cbn [main_fib].
    replace (Z.of_nat (S (S n)) <? 2) with false by (symmetry; apply Z.ltb_ge; lia).
    replace (Z.of_nat (S (S n)) - 1) with (Z.of_nat (S n)) by lia.
    replace (Z.of_nat (S (S n)) - 2) with (Z.of_nat n) by lia.
    rewrite (wrap_small p (Z.of_nat (S n))) by (unfold max_int in *; lia).
    rewrite (wrap_small p (Z.of_nat n)) by (unfold max_int in *; lia).
    rewrite IH2 by lia. rewrite IH1 by lia.
    rewrite wrap_add, <- fib_SS. reflexivity.
Qed.

(** X9. The recursive closure [fib] returns its argument for every
    [n < 2], negative ones included; for [n >= 0] it returns, within [n]
    nested calls, the Fibonacci number [F(n)] reduced to an [int], which
    is the value [genFib] hands to its [n]-th call. *)
Theorem X9_main_fib (p : arch) (n : nat) (depth : nat) :
  (n < depth)%nat -> Z.of_nat n <= max_int p ->
  main_fib p depth (Z.of_nat n) = Some (wrap p (fib n)) /\
  (forall z, z < 2 -> main_fib p depth z = Some z) /\
  (forall W (yield : yield_func Z W) fuel w v r,
     calls (genFib p yield fuel w) !! n = Some (v, r) ->
     Z.of_nat (S n) <= max_int p ->
     main_fib p (S depth) (Z.of_nat (S n)) = Some v).
Proof.
  intros Hd Hr. split; [apply main_fib_fib; assumption|]. split.
  - intros z Hz. destruct depth as [|depth]; [lia|]. cbn [main_fib].
    replace (z <? 2) with true by (symmetry; apply Z.ltb_lt; lia). reflexivity.
  - intros W yield fuel w v r Hc Hr'. apply genFib_value in Hc. subst v.
    apply main_fib_fib; [lia | exact Hr'].
Qed.

End Recursion.

Lemma X6_fact_factorial_witness :
  (7 < 8)%nat /\ (Z.of_nat 7 <= max_int Arch64)%Z /\
  fact Arch64 8 7 = Some 5040%Z.
Proof.
  assert (H1 : (7 < 8)%nat) by lia.
  assert (H2 : (Z.of_nat 7 <= max_int Arch64)%Z) by (vm_compute; discriminate).
  split; [exact H1|]. split; [exact H2|].
  exact (proj1 (X6_fact_factorial Arch64 7 8 H1 H2)).
Defined.

Lemma X7_fact_zero_witness :
  (66 < 67)%nat /\ fact Arch64 67 66 = Some 0%Z.
Proof.
  split; [lia|].
  apply (X7_fact_zero Arch64 66 67); [lia | vm_compute; discriminate | lia].
Defined.

Lemma X8_fact_negative_witness :
  (- 2 ^ (int_size Arch64 - 1) <= -1 < 0)%Z /\
  fact Arch64 1000 (-1) = None.
Proof.
  assert (H : (- 2 ^ (int_size Arch64 - 1) <= -1 < 0)%Z) by (simpl; lia).
  split; [exact H|].
  apply (X8_fact_negative Arch64 1000 (-1) H). simpl. lia.
Defined.

Lemma X9_main_fib_witness :
  (7 < 8)%nat /\ main_fib Arch64 8 7 = Some 13%Z /\
  main_fib Arch64 8 (-5) = Some (-5)%Z.
Proof.
  split; [lia|].
  destruct (X9_main_fib Arch64 7 8 ltac:(lia) ltac:(vm_compute; discriminate))
    as (H1 & H2 & _).
  split; [exact H1|]. apply H2. lia.
Defined.

(** ** Closures: [intSeq] *)

Section IntSeq.
Local Open Scope Z_scope.

Lemma calls_to_cons c c0 cs :
  calls_to c (c0 :: cs) = (if decide (c0 = c) then S (calls_to c cs) else calls_to c cs).
Proof.
  unfold calls_to. rewrite filter_cons. destruct (decide (c0 = c)); reflexivity.
Qed.

Lemma calls_intSeq_counts p cs : forall vars,
  (forall c, c ∈ cs -> (c < length vars)%nat) ->
  exists rs vars', calls_intSeq p cs vars = Some (rs, vars') /\
    length rs = length cs /\
    length vars' = length vars /\
    (forall k c i, cs !! k = Some c -> vars !! c = Some i ->
       rs !! k = Some (wrap p (i + Z.of_nat (calls_to c (take (S k) cs))))) /\
    (forall c i, vars !! c = Some i -> calls_to c cs = 0%nat -> vars' !! c = Some i).
Proof.
  induction cs as [|c0 cs IH]; intros vars Hvalid.
  - exists [], vars. repeat split; auto; intros; discriminate.
  - assert (Hc0 : (c0 < length vars)%nat) by (apply Hvalid, elem_of_cons; auto).
    destruct (lookup_lt_is_Some_2 vars c0 Hc0) as [i0 Hi0].
    cbn [calls_intSeq]. unfold call_intSeq. rewrite Hi0.
    destruct (IH (<[c0 := wrap p (i0 + 1)]> vars)) as (rs & vars' & Hrun & Hlr & Hlv & Hres & Hkeep).
    { intros c Hc. rewrite length_insert. apply Hvalid, elem_of_cons; auto. }
    rewrite Hrun. exists (wrap p (i0 + 1) :: rs), vars'.
    split; [reflexivity|]. split; [simpl; lia|].
    split; [rewrite Hlv, length_insert; reflexivity|]. split.
    + intros k c i Hk Hi. destruct k as [|k]; simpl in Hk.
      * inversion Hk; subst c0. rewrite Hi0 in Hi. inversion Hi; subst i0.
        simpl. rewrite calls_to_cons. destruct (decide (c = c)); [|congruence].
        reflexivity.
      * cbn [take]. rewrite calls_to_cons. simpl.
        destruct (decide (c0 = c)) as [->|Hne].
        -- rewrite Hi0 in Hi. inversion Hi; subst i0.
           rewrite (Hres k c (wrap p (i + 1)) Hk)
             by (apply list_lookup_insert_eq; exact Hc0).
           f_equal. rewrite wrap_add_l. f_equal. lia.
        -- apply (Hres k c i Hk). rewrite list_lookup_insert_ne by exact Hne.
           exact Hi.
    + intros c i Hi Hzero. rewrite calls_to_cons in Hzero.
      destruct (decide (c0 = c)) as [->|Hne]; [discriminate|].
      apply Hkeep; [|exact Hzero]. rewrite list_lookup_insert_ne by exact Hne.
      exact Hi.
Qed.

(** X10. Each closure made by [intSeq] counts its own calls. In any
    run of calls to closures that exist, no call fails, and a call to a
    closure returns the value its variable started from plus the number of
    calls made to that closure so far, reduced to an [int]: calls to other
    closures in between change nothing, and a closure that was not called
    keeps its variable. *)
Theorem X10_intSeq_counts (p : arch) (cs : list nat) (vars : list Z) :
  (forall c, c ∈ cs -> (c < length vars)%nat) ->
  exists rs vars', calls_intSeq p cs vars = Some (rs, vars') /\
    length rs = length cs /\
    (forall k c i, cs !! k = Some c -> vars !! c = Some i ->
       rs !! k = Some (wrap p (i + Z.of_nat (calls_to c (take (S k) cs))))) /\
    (forall c i, vars !! c = Some i -> calls_to c cs = 0%nat -> vars' !! c = Some i) /\
    (intSeq vars).2 !! (intSeq vars).1 = Some 0.
Proof.
  intros Hvalid.
  destruct (calls_intSeq_counts p cs vars Hvalid) as (rs & vars' & H1 & H2 & _ & H3 & H4).
  exists rs, vars'. repeat (split; [assumption|]).
  unfold intSeq. simpl. rewrite lookup_app_r by lia.
  rewrite Nat.sub_diag. reflexivity.
Qed.

End IntSeq.

Lemma X10_intSeq_counts_witness :
  intSeq [] = (0, [0%Z]) /\ intSeq [0%Z] = (1, [0; 0]%Z) /\
  (forall c, c ∈ [0; 0; 0; 1] -> c < length [0; 0]%Z) /\
  exists rs vars',
    calls_intSeq Arch64 [0; 0; 0; 1] [0; 0]%Z = Some (rs, vars') /\
    rs = [1; 2; 3; 1]%Z.
Proof.
  assert (H : forall c, c ∈ [0; 0; 0; 1] -> c < length [0; 0]%Z).
  { intros c Hc. simpl.
    repeat (apply elem_of_cons in Hc as [Hc|Hc]; [lia|]). inversion Hc. }
  split; [reflexivity|]. split; [reflexivity|]. split; [exact H|].
  destruct (X10_intSeq_counts Arch64 [0; 0; 0; 1] [0; 0]%Z H)
    as (rs & vars' & Hrun & _).
  exists rs, vars'. split; [exact Hrun|].
  vm_compute in Hrun. inversion Hrun. reflexivity.
Defined.

(** ** Functions: [plus], [plusPlus], [sum] *)

Section Sum.
Local Open Scope Z_scope.

Lemma sum_loop_total p nums : forall t,
  sum_loop p (wrap p t) nums = wrap p (t + total_of nums).
Proof.
  induction nums as [|n nums IH]; intros t; simpl.
  - rewrite Z.add_0_r. reflexivity.
  - rewrite wrap_add_l, IH. f_equal. lia.
Qed.

Lemma total_of_app xs ys : total_of (xs ++ ys) = total_of xs + total_of ys.
Proof. induction xs as [|x xs IH]; simpl; [reflexivity|]. rewrite IH. lia. Qed.

Lemma total_of_perm xs ys : xs ≡ₚ ys -> total_of xs = total_of ys.
Proof. induction 1; simpl; lia. Qed.

(** X11. The total [sum] prints is the sum of its arguments reduced to
    an [int], whatever overflows on the way: it is [0] for no argument,
    does not depend on the order of the arguments, adds up over
    concatenated argument lists as [plus] does, and [plus(a, b)] and
    [plusPlus(a, b, c)] are the totals of [sum(a, b)] and
    [sum(a, b, c)]. *)
Theorem X11_sum_total (p : arch) (nums nums' : list Z) (a b c : Z) :
  (sum p nums).1 = nums /\
  (sum p nums).2 = wrap p (total_of nums) /\
  (sum p []).2 = 0 /\
  (nums ≡ₚ nums' -> (sum p nums).2 = (sum p nums').2) /\
  (sum p (nums ++ nums')).2 = plus p (sum p nums).2 (sum p nums').2 /\
  plus p a b = (sum p [a; b]).2 /\
  plusPlus p a b c = (sum p [a; b; c]).2 /\
  plusPlus p a b c = wrap p (a + b + c).
Proof.
  assert (Hsum : forall l, (sum p l).2 = wrap p (total_of l)).
  { intros l. unfold sum. simpl. rewrite <- (wrap_0 p) at 1.
    rewrite sum_loop_total. reflexivity. }
  split; [reflexivity|]. split; [apply Hsum|].
  split; [rewrite Hsum; apply wrap_0|]. split; [|split; [|split; [|split]]].
  - intros Hperm. rewrite !Hsum, (total_of_perm _ _ Hperm). reflexivity.
  - rewrite !Hsum. unfold plus. rewrite wrap_add, total_of_app. reflexivity.
  - rewrite Hsum. unfold plus. simpl. f_equal. lia.
  - rewrite Hsum. unfold plusPlus. rewrite wrap_add_l. simpl. f_equal. lia.
  - unfold plusPlus. rewrite wrap_add_l. reflexivity.
Qed.

End Sum.

Lemma X11_sum_total_witness :
  [1; 2; 3; 4]%Z ≡ₚ [4; 3; 2; 1]%Z /\
  (sum Arch64 [1; 2; 3; 4]%Z).2 = 10%Z /\
  (sum Arch64 [1; 2; 3; 4]%Z).2 = (sum Arch64 [4; 3; 2; 1]%Z).2.
Proof.
  assert (H : [1; 2; 3; 4]%Z ≡ₚ [4; 3; 2; 1]%Z).
  { apply (bool_decide_unpack _). vm_compute. reflexivity. }
  split; [exact H|]. split; [reflexivity|].
  exact (proj1 (proj2 (proj2 (proj2
    (X11_sum_total Arch64 [1; 2; 3; 4]%Z [4; 3; 2; 1]%Z 0 0 0)))) H).
Defined.

(** ** Enums: [ServerState] *)

Section ServerStateFacts.
Local Open Scope Z_scope.

Lemma declared_cases s :
  declared s \/ (s <> 0 /\ s <> 1 /\ s <> 2 /\ s <> 3).
Proof. unfold declared, StateIdle, StateConnected, StateError, StateRetrying. lia. Qed.

Lemma stateName_undeclared s : ~ declared s -> stateName !! s = None.
Proof.
  intros Hs. destruct (declared_cases s) as [?|(H0 & H1 & H2 & H3)]; [contradiction|].
  unfold stateName, StateIdle, StateConnected, StateError, StateRetrying.
  rewrite !lookup_insert_ne by congruence. apply lookup_singleton_ne. congruence.
Qed.

(** X12. [transition] returns on the four declared states and only on
    them, and what it returns is [StateIdle], [StateConnected] or
    [StateError], never [StateRetrying]. On any other value it panics, and
    the message never names the value: its [String] is empty, so the
    message is just ["unknown state: "]. *)
Theorem X12_transition_declared (s : Z) :
  (declared s ->
     exists s', transition s = Returns s' /\
       (s' = StateIdle \/ s' = StateConnected \/ s' = StateError)) /\
  (~ declared s -> transition s = Panics "unknown state: ") /\
  ((exists s', transition s = Returns s') -> declared s).
Proof.
  split; [|split].
  - intros [->|[->|[->| ->]]]; eexists; (split; [reflexivity|]); auto.
  - intros Hs. pose proof (stateName_undeclared s Hs) as Hn.
    destruct (declared_cases s) as [?|(H0 & H1 & H2 & H3)]; [contradiction|].
    unfold transition, ServerState_String, StateIdle, StateConnected, StateError,
      StateRetrying. rewrite Hn.
    destruct (Z.eqb_spec s 0); [contradiction|].
    destruct (Z.eqb_spec s 1); [contradiction|].
    destruct (Z.eqb_spec s 3); [contradiction|].
    destruct (Z.eqb_spec s 2); [contradiction|]. reflexivity.
  - intros [s' Hs']. destruct (declared_cases s) as [?|(H0 & H1 & H2 & H3)]; [assumption|].
    exfalso. unfold transition, StateIdle, StateConnected, StateError,
      StateRetrying in Hs'.
    destruct (Z.eqb_spec s 0); [contradiction|].
    destruct (Z.eqb_spec s 1); [contradiction|].
    destruct (Z.eqb_spec s 3); [contradiction|].
    destruct (Z.eqb_spec s 2); [contradiction|]. discriminate.
Qed.

Lemma transitions_live n : forall s,
  s = StateIdle \/ s = StateConnected ->
  exists s', transitions n s = Returns s' /\ (s' = StateIdle \/ s' = StateConnected).
Proof.
  induction n as [|n IH]; intros s Hs; simpl; [eauto|].
  destruct Hs as [Hs|Hs]; subst s; simpl; apply IH; auto.
Qed.

Lemma transitions_step n s :
  declared s -> s <> StateError ->
  exists s', transitions (S n) s = Returns s' /\
             (s' = StateIdle \/ s' = StateConnected).
Proof.
  intros Hs Hne. destruct Hs as [Hs|[Hs|[Hs|Hs]]]; subst s;
    [ | | congruence | ]; simpl; apply transitions_live; auto.
Qed.

(** X13. Runs of transitions from a declared state never panic.
    [StateError] is absorbing, and it is the only state [transition]
    leaves in place; from any other declared state every run of one or
    more steps ends in [StateIdle] or [StateConnected], so neither
    [StateError] nor [StateRetrying] is ever entered; and between
    [StateIdle] and [StateConnected] two steps lead back. *)
Theorem X13_transitions (n : nat) (s : Z) :
  declared s ->
  (exists s', transitions n s = Returns s' /\ declared s') /\
  (s = StateError -> transitions n s = Returns StateError) /\
  (s <> StateError ->
     exists s', transitions (S n) s = Returns s' /\
                (s' = StateIdle \/ s' = StateConnected)) /\
  (transition s = Returns s <-> s = StateError) /\
  (s = StateIdle \/ s = StateConnected -> transitions (2 * n) s = Returns s).
Proof.
  intros Hs.
  assert (Herr : forall k, transitions k StateError = Returns StateError).
  { induction k as [|k IHk]; simpl; auto. }
  split; [|split; [|split; [|split]]].
  - destruct (decide (s = StateError)) as [->|Hne].
    + exists StateError. split; [apply Herr|]. unfold declared; auto.
    + destruct n as [|n].
      * exists s. split; [reflexivity | exact Hs].
      * destruct (transitions_step n s Hs Hne) as (s' & Hr & Hd).
        exists s'. split; [exact Hr|]. unfold declared. tauto.
  - intros ->. apply Herr.
  - apply transitions_step. exact Hs.
  - split.
    + destruct Hs as [Hs|[Hs|[Hs|Hs]]]; subst s; simpl; intros H;
        try discriminate; reflexivity.
    + intros ->. reflexivity.
  - intros Hic. induction n as [|n IH]; [reflexivity|].
    replace (2 * S n)%nat with (S (S (2 * n))) by lia.
    destruct Hic as [Hic|Hic]; subst s; simpl in *; apply IH; auto.
Qed.

(** X14. [String] tells the declared states apart: each has a name that
    is not empty, different states have different names, and every other
    value prints as the empty string. *)
Theorem X14_String_names (s t : Z) :
  (declared s <-> ServerState_String s <> ""%string) /\
  (declared s -> declared t ->
   ServerState_String s = ServerState_String t -> s = t).
Proof.
  split; [split|].
  - intros [->|[->|[->| ->]]]; vm_compute; discriminate.
  - intros Hne. destruct (declared_cases s) as [?|Hnd]; [assumption|].
    exfalso. apply Hne. unfold ServerState_String.
    rewrite stateName_undeclared; [reflexivity|].
    unfold declared, StateIdle, StateConnected, StateError, StateRetrying. lia.
  - intros [->|[->|[->| ->]]] [->|[->|[->| ->]]]; vm_compute;
      intros H; try reflexivity; discriminate H.
Qed.

End ServerStateFacts.

Lemma X12_transition_declared_witness :
  declared StateRetrying /\ transition StateRetrying = Returns StateIdle /\
  ~ declared 7%Z /\ transition 7%Z = Panics "unknown state: ".
Proof.
  assert (H1 : declared StateRetrying) by (unfold declared; auto).
  assert (H2 : ~ declared 7%Z).
  { unfold declared, StateIdle, StateConnected, StateError, StateRetrying. lia. }
  split; [exact H1|]. split; [reflexivity|]. split; [exact H2|].
  exact (proj1 (proj2 (X12_transition_declared 7%Z)) H2).
Defined.

Lemma X13_transitions_witness :
  declared StateRetrying /\
  exists s', transitions 5 StateRetrying = Returns s' /\
             (s' = StateIdle \/ s' = StateConnected).
Proof.
  assert (H1 : declared StateRetrying) by (unfold declared; auto).
  split; [exact H1|].
  apply (proj1 (proj2 (proj2 (X13_transitions 4 StateRetrying H1)))).
  discriminate.
Defined.

Lemma X14_String_names_witness :
  declared StateError /\ ServerState_String StateError <> ""%string /\
  ServerState_String StateError = "error"%string.
Proof.
  assert (H1 : declared StateError) by (unfold declared; auto).
  split; [exact H1|]. split; [|reflexivity].
  exact (proj1 (proj1 (X14_String_names StateError StateError)) H1).
Defined.

(** ** Errors: [f] and [makeTea] *)

Section Errors.
Local Open Scope Z_scope.

Lemma wrap_plus3 p arg :
  - 2 ^ (int_size p - 1) <= arg <= max_int p ->
  (wrap p (arg + 3) = -1 <-> arg = -4) /\
  (arg <> 42 -> wrap p (arg + 3) <> 45) /\
  (arg + 3 <= max_int p -> wrap p (arg + 3) = arg + 3) /\
  (max_int p < arg + 3 -> wrap p (arg + 3) = arg + 3 - 2 ^ int_size p).
Proof.
  intros Hr. destruct (int_size_pow p) as [HM HH].
  assert (H64 : 64 <= 2 ^ (int_size p - 1)) by (destruct p; simpl; lia).
  unfold max_int in *.
  destruct (decide (arg + 3 <= 2 ^ (int_size p - 1) - 1)) as [Hfit|Hover].
  - rewrite wrap_small by (unfold max_int; lia). repeat split; intros; lia.
  - assert (Hw : wrap p (arg + 3) = arg + 3 - 2 ^ int_size p).
    { unfold wrap.
      replace (arg + 3 + 2 ^ (int_size p - 1))
        with ((arg + 3 - 2 ^ (int_size p - 1)) + 1 * 2 ^ int_size p) by lia.
      rewrite Z_mod_plus_full, Z.mod_small by lia. lia. }
    rewrite Hw. repeat split; intros; lia.
Qed.

(** X15. [f] reports an error exactly on the argument 42, where its
    result is [-1]; yet [-1] is also its result, without error, on the
    argument [-4], so only the error tells a failure. Without error the
    result is [arg + 3], never 45, except that on the three largest
    [int]s the addition wraps around to the three smallest. *)
Theorem X15_f_error (p : arch) (arg : Z) (next : nat) :
  - 2 ^ (int_size p - 1) <= arg <= max_int p ->
  let '(r, e, next') := f p arg next in
  (e <> None <-> arg = 42) /\
  (r = -1 <-> arg = 42 \/ arg = -4) /\
  (e = None -> r <> 45) /\
  (e = None -> arg + 3 <= max_int p -> r = arg + 3) /\
  (max_int p < arg + 3 -> e = None /\ r = arg + 3 - 2 ^ int_size p) /\
  (e <> None -> e = Some (errorString next "can't work with 42") /\ next' = S next).
Proof.
  intros Hr. destruct (wrap_plus3 p arg Hr) as (Hm1 & H45 & Hfit & Hover).
  assert (H64 : 64 <= 2 ^ (int_size p - 1)) by (destruct p; simpl; lia).
  unfold f. destruct (Z.eqb_spec arg 42) as [->|Hne].
  - split; [split; [reflexivity|discriminate]|].
    split; [split; auto|]. split; [discriminate|]. split; [discriminate|].
    split; [unfold max_int; lia|]. auto.
  - split; [split; [congruence|contradiction]|].
    split; [rewrite Hm1; split; [auto|intros [?|?]; [contradiction|assumption]]|].
    split; [auto|]. split; [auto|]. split; [auto|]. congruence.
Qed.

Lemma errors_Is_sentinel_fresh next msg (target : error) :
  (error_id target < next)%nat ->
  errors_Is_chain (wrapError next msg ErrPower) target
  = errors_Is_chain ErrPower target.
Proof.
  intros Hlt. simpl.
  replace (next =? error_id target)%nat with false
    by (symmetry; apply Nat.eqb_neq; lia).
  reflexivity.
Qed.

(** X16. [main] always recognises what [makeTea] returns, provided the
    errors made at run time are new objects, distinct from the two
    sentinels. The answer is [ErrOutOfTea] itself exactly for 2; for 4 it
    is a new error that wraps [ErrPower]: not equal to it, but found by
    [errors.Is], with the message of [ErrPower] behind its own; for any
    other argument it is [nil]. So the line printed is the tea one, the
    power one or the ready one, and the unknown-error branch is never
    taken. *)
Theorem X16_makeTea_recognised (i : Z) (next : nat) :
  (2 <= next)%nat ->
  tea_line i next =
    (if i =? 2 then "We should buy new tea!"%string
     else if i =? 4 then "Now it is dark."%string
     else "Tea is ready!"%string) /\
  ((makeTea i next).1 = Some ErrOutOfTea <-> i = 2) /\
  ((makeTea i next).1 = None <-> i <> 2 /\ i <> 4) /\
  (errors_Is (makeTea i next).1 (Some ErrPower) = true <-> i = 4) /\
  (errors_Is (makeTea i next).1 (Some ErrOutOfTea) = true <-> i = 2) /\
  (makeTea i next).1 <> Some ErrPower /\
  (i = 4 -> Error <$> (makeTea i next).1 = Some "making tea: can't boil water"%string).
Proof.
  intros Hnext. unfold tea_line, makeTea.
  assert (Hn0 : (next =? 0)%nat = false) by (apply Nat.eqb_neq; lia).
  assert (Hn1 : (next =? 1)%nat = false) by (apply Nat.eqb_neq; lia).
  destruct (Z.eqb_spec i 2) as [->|H2]; [|destruct (Z.eqb_spec i 4) as [->|H4]];
    simpl; rewrite ?Hn0, ?Hn1; simpl;
    repeat split; intros; try reflexivity; try discriminate; try lia;
    try tauto; try congruence.
Qed.

End Errors.

Lemma X15_f_error_witness :
  (- 2 ^ (int_size Arch64 - 1) <= -4 <= max_int Arch64)%Z /\
  f Arch64 (-4) 2 = ((-1)%Z, None, 2) /\
  f Arch64 42 2 = ((-1)%Z, Some (errorString 2 "can't work with 42"), 3) /\
  (f Arch64 (-4) 2).1.1 = (-1)%Z.
Proof.
  assert (H : (- 2 ^ (int_size Arch64 - 1) <= -4 <= max_int Arch64)%Z)
    by (vm_compute; split; discriminate).
  split; [exact H|]. split; [reflexivity|]. split; [reflexivity|].
  pose proof (X15_f_error Arch64 (-4) 2 H) as Hf.
  destruct (f Arch64 (-4) 2) as [[r e] n'] eqn:E. simpl.
  destruct Hf as (_ & Hm1 & _). apply Hm1. right. reflexivity.
Defined.

Lemma X16_makeTea_recognised_witness :
  (2 <= 2)%nat /\
  tea_line 4 2 = "Now it is dark."%string /\
  map (fun i => tea_line i 2) [0; 1; 2; 3; 4]%Z
  = ["Tea is ready!"; "Tea is ready!"; "We should buy new tea!";
     "Tea is ready!"; "Now it is dark."]%string.
Proof.
  split; [lia|]. split; [|reflexivity].
  exact (proj1 (X16_makeTea_recognised 4 2 ltac:(lia))).
Defined.
